(** * docker images: the listing loop of [api/client/images.go]

  A shallow embedding of [CmdImages] (api/client/images.go) from the
  point where the image list comes back from the daemon: header
  selection, the per-image loop with the dangling-image rule, the
  per-reference loop that fills repository, tag and digest, the row
  that is printed, and the final flush.

  The collaborators the function calls but does not define
  ([reference.ParseNamed], [stringid.TruncateID],
  [units.HumanDuration], [units.HumanSize], the wall clock) are
  variables of a section; every theorem holds for all of them. *)

From Stdlib Require Import String Ascii List ZArith Lia Bool.
Import ListNotations.
Open Scope string_scope.
Open Scope list_scope.

Set Implicit Arguments.

(** ** Strings *)

Definition TAB : string := String "009"%char "".
Definition NL : string := String "010"%char "".

(** The literal [<none>] of lines 89-91 and 93. *)
Definition none : string := "<none>".

(** [strings.HasPrefix(s, p)]. *)
Definition HasPrefix (s p : string) : bool := String.prefix p s.

(** ** Data *)

(** [types.Image], the fields [CmdImages] reads. *)
Record Image := mkImage {
  ID : string;
  RepoTags : list string;
  RepoDigests : list string;
  Created : Z;
  Size : Z
}.

(** A value of interface type [reference.Named].  A Go value may
  implement [reference.Digested], [reference.Tagged], both or neither;
  the two options say which of the two type assertions succeed and
  what [Digest().String()] and [Tag()] return. *)
Record Named := mkNamed {
  Name : string;
  asDigested : option string;
  asTagged : option string
}.

(** ** Effects

  What the function does to the outside, in program order: calls of
  the reference parser, writes on the tab writer [w], the flush of
  [w].  The wall clock is read once per printed row; the state counts
  the readings so that every row may see a different time. *)

Inductive event :=
  | CallParse (s : string)
  | Fprint (s : string)
  | FlushW.

Section Monad.
Variable error : Type.

Definition M (A : Type) : Type := nat -> list event * nat * (error + A).

Definition ret {A} (a : A) : M A := fun k => ([], k, inr a).

Definition bind {A B} (m : M A) (f : A -> M B) : M B :=
  fun k =>
    match m k with
    | (e1, k1, inl err) => (e1, k1, inl err)
    | (e1, k1, inr a) =>
        match f a k1 with
        | (e2, k2, r) => (e1 ++ e2, k2, r)
        end
    end.

Definition fail {A} (err : error) : M A := fun k => ([], k, inl err).
Definition emit (ev : event) : M unit := fun k => ([ev], k, inr tt).
Definition readClock : M nat := fun k => ([], S k, inr k).

(** [for _, x := range xs { body }] with early [return err]. *)
Fixpoint forM_ {A} (xs : list A) (body : A -> M unit) : M unit :=
  match xs with
  | [] => ret tt
  | x :: xs' => bind (body x) (fun _ => forM_ xs' body)
  end.

(** The same loop collecting one result per element. *)
Fixpoint mapM {A B} (f : A -> M B) (xs : list A) : M (list B) :=
  match xs with
  | [] => ret []
  | x :: xs' => bind (f x) (fun b => bind (mapM f xs') (fun bs => ret (b :: bs)))
  end.
End Monad.

Arguments ret {error A} a.
Arguments fail {error A} err.
Arguments emit {error} ev.
Arguments readClock {error}.

Notation "x <- m ;; k" := (bind m (fun x => k))
  (at level 61, m at next level, right associativity).
Notation "m ;;; k" := (bind m (fun _ => k))
  (at level 61, right associativity).

Definition events {E A} (r : list event * nat * (E + A)) : list event := fst (fst r).
Definition clockReads {E A} (r : list event * nat * (E + A)) : nat := snd (fst r).
Definition outcome {E A} (r : list event * nat * (E + A)) : E + A := snd r.

(** The strings written on [w], in order. *)
Fixpoint writes (evs : list event) : list string :=
  match evs with
  | [] => []
  | Fprint s :: evs' => s :: writes evs'
  | _ :: evs' => writes evs'
  end.

(** The strings handed to the reference parser, in order. *)
Fixpoint parsed (evs : list event) : list string :=
  match evs with
  | [] => []
  | CallParse s :: evs' => s :: parsed evs'
  | _ :: evs' => parsed evs'
  end.

(** ** The function *)

Section CmdImages.
Variable error : Type.

(** [reference.ParseNamed]. *)
Variable ParseNamed : string -> error + Named.
(** [stringid.TruncateID]. *)
Variable TruncateID : string -> string.
(** [units.HumanDuration(time.Now().UTC().Sub(time.Unix(int64(c), 0)))]
    at the [k]-th reading of the clock, for creation time [c]. *)
Variable HumanDurationSince : nat -> Z -> string.
(** [units.HumanSize(float64(n))]. *)
Variable HumanSize : Z -> string.

Local Abbreviation M := (M error).

Definition parseNamed (s : string) : M Named :=
  fun k => ([CallParse s], k, ParseNamed s).

(** Lines 65 and 67: the text [fmt.Fprintln] writes. *)
Definition header (showDigests : bool) : string :=
  if showDigests
  then "REPOSITORY" ++ TAB ++ "TAG" ++ TAB ++ "DIGEST" ++ TAB ++ "IMAGE ID"
       ++ TAB ++ "CREATED" ++ TAB ++ "SIZE" ++ NL
  else "REPOSITORY" ++ TAB ++ "TAG" ++ TAB ++ "IMAGE ID"
       ++ TAB ++ "CREATED" ++ TAB ++ "SIZE" ++ NL.

(** Lines 72-75. *)
Definition displayID (noTrunc : bool) (image : Image) : string :=
  if negb noTrunc then TruncateID (ID image) else ID image.

(** Line 80. *)
Definition dangling (repoTags repoDigests : list string) : bool :=
  match repoTags, repoDigests with
  | [t], [d] => String.eqb t "<none>:<none>" && String.eqb d "<none>@<none>"
  | _, _ => false
  end.

(** Lines 77-86: the combined list the inner loop ranges over. *)
Definition tagsAndDigests (image : Image) : list string :=
  let repoTags := RepoTags image in
  let repoDigests := RepoDigests image in
  let repoDigests := if dangling repoTags repoDigests then [] else repoDigests in
  repoTags ++ repoDigests.

(** Lines 98-105: the fields of a parsed reference.  The type switch
  tries [reference.Digested] first, then [reference.Tagged]. *)
Definition namedFields (ref : Named) : string * string * string :=
  let tag := none in
  let digest := none in
  let repo := Name ref in
  match asDigested ref with
  | Some d => (repo, tag, d)
  | None =>
      match asTagged ref with
      | Some t => (repo, t, digest)
      | None => (repo, tag, digest)
      end
  end.

(** Lines 89-106: repository, tag and digest of one reference string. *)
Definition refFields (repoAndRef : string) : M (string * string * string) :=
  let repo := none in
  let tag := none in
  let digest := none in
  if negb (HasPrefix repoAndRef "<none>") then
    ref <- parseNamed repoAndRef ;;
    ret (namedFields ref)
  else ret (repo, tag, digest).

(** Lines 110 and 112: the text [fmt.Fprintf] writes; [k] is the reading
  of the clock that [time.Now()] returns. *)
Definition rowText (showDigests : bool) (ID : string) (image : Image)
    (k : nat) (repo tag digest : string) : string :=
  if showDigests then
    repo ++ TAB ++ tag ++ TAB ++ digest ++ TAB ++ ID ++ TAB
    ++ HumanDurationSince k (Created image) ++ " ago" ++ TAB
    ++ HumanSize (Size image) ++ NL
  else
    repo ++ TAB ++ tag ++ TAB ++ ID ++ TAB
    ++ HumanDurationSince k (Created image) ++ " ago" ++ TAB
    ++ HumanSize (Size image) ++ NL.

(** Lines 108-116. *)
Definition printRow (quiet showDigests : bool) (ID : string) (image : Image)
    (f : string * string * string) : M unit :=
  let '(repo, tag, digest) := f in
  if negb quiet then
    k <- readClock ;;
    emit (Fprint (rowText showDigests ID image k repo tag digest))
  else emit (Fprint (ID ++ NL)).

(** The line [printRow] writes at clock reading [k]. *)
Definition rowLine (quiet showDigests : bool) (ID : string) (image : Image)
    (k : nat) (f : string * string * string) : string :=
  let '(repo, tag, digest) := f in
  if negb quiet then rowText showDigests ID image k repo tag digest
  else ID ++ NL.

(** The lines written for a list of triples, from clock reading [k] on. *)
Fixpoint rowsOf (quiet showDigests : bool) (ID : string) (image : Image)
    (k : nat) (fs : list (string * string * string)) : list string :=
  match fs with
  | [] => []
  | f :: fs' =>
      rowLine quiet showDigests ID image k f
      :: rowsOf quiet showDigests ID image (if quiet then k else S k) fs'
  end.

(** Lines 87-117: the body of the inner loop. *)
Definition listRef (quiet showDigests : bool) (ID : string) (image : Image)
    (repoAndRef : string) : M unit :=
  f <- refFields repoAndRef ;;
  printRow quiet showDigests ID image f.

(** Lines 71-118: the body of the outer loop. *)
Definition listImage (quiet noTrunc showDigests : bool) (image : Image) : M unit :=
  forM_ (tagsAndDigests image)
    (listRef quiet showDigests (displayID noTrunc image) image).

(** Lines 57-123.  [listed] is what [cli.client.ImageList] returned. *)
Definition CmdImages (quiet noTrunc showDigests : bool)
    (listed : error + list Image) : M unit :=
  match listed with
  | inl err => fail err
  | inr images =>
      (if negb quiet then emit (Fprint (header showDigests)) else ret tt) ;;;
      forM_ images (listImage quiet noTrunc showDigests) ;;;
      (if negb quiet then emit FlushW else ret tt)
  end.

(** The triples of one record, in the order the inner loop computes
    them (the "reference reconciler" of the design). *)
Definition reconcile (image : Image) : M (list (string * string * string)) :=
  mapM refFields (tagsAndDigests image).

(** A string the inner loop gets past: it starts with [<none>] or the
    parser accepts it. *)
Definition goodRef (s : string) : Prop :=
  HasPrefix s "<none>" = true \/ exists ref, ParseNamed s = inr ref.

(** A string the inner loop stops at, with the parser's error. *)
Definition badRef (s : string) (err : error) : Prop :=
  HasPrefix s "<none>" = false /\ ParseNamed s = inl err.

(** A line of the table: the row of one of the records, for the
    default triple or for the fields of a reference the parser
    returned. *)
Definition isRow (quiet noTrunc showDigests : bool) (images : list Image)
    (line : string) : Prop :=
  exists image k f,
    In image images
    /\ (f = (none, none, none)
        \/ exists s ref, ParseNamed s = inr ref /\ f = namedFields ref)
    /\ line = rowLine quiet showDigests (displayID noTrunc image) image k f.

(** [f] is the triple computed for [s], at any reading of the clock. *)
Definition fieldsOf (s : string) (f : string * string * string) : Prop :=
  forall k, refFields s k = (events (refFields s k), k, inr f).

End CmdImages.

(** ** The tab writer

    [w] is a [text/tabwriter.Writer] over [cli.out], created with flags
    0 (line 62).  The package belongs to the Go standard library, not to
    this repository; what follows is the buffering side of its [Write]
    and [Flush], which decides when text reaches [cli.out]:

    - text is collected in cells; a tab or vertical tab ends a cell, a
      newline or form feed ends a cell and the line;
    - when a newline ends a line that has a single cell, or on any form
      feed, the buffered text is formatted and handed on at once;
    - the byte 0xFF opens an escaped segment, closed by the next 0xFF,
      inside which no byte ends a cell;
    - [Flush] formats and hands on whatever is buffered.

    Column alignment itself ([format], from buffered text to output
    text) stays a variable. *)

Module tabwriter.

Definition isTab (c : ascii) : bool := Ascii.eqb c "009" || Ascii.eqb c "011".
Definition isBreak (c : ascii) : bool := Ascii.eqb c "010" || Ascii.eqb c "012".
Definition isFormFeed (c : ascii) : bool := Ascii.eqb c "012".
Definition isEscape (c : ascii) : bool := Ascii.eqb c "255".

Record Writer := mkWriter {
  out : string;        (* bytes handed on to the underlying stream *)
  buf : string;        (* text collected since the last flush *)
  cells : nat;         (* cells already ended on the current line *)
  escaped : bool       (* inside an escaped segment *)
}.

Definition NewWriter (output : string) : Writer :=
  {| out := output; buf := ""; cells := 0; escaped := false |}.

Section Format.
Variable format : string -> string.

Definition Flush (w : Writer) : Writer :=
  {| out := (out w ++ format (buf w))%string; buf := ""; cells := 0;
     escaped := false |}.

Definition writeByte (w : Writer) (ch : ascii) : Writer :=
  let text := (buf w ++ String ch "")%string in
  if escaped w then
    {| out := out w; buf := text; cells := cells w;
       escaped := negb (isEscape ch) |}
  else if isTab ch then
    {| out := out w; buf := text; cells := S (cells w); escaped := false |}
  else if isBreak ch then
    if isFormFeed ch || Nat.eqb (cells w) 0 then
      Flush {| out := out w; buf := text; cells := 0; escaped := false |}
    else {| out := out w; buf := text; cells := 0; escaped := false |}
  else if isEscape ch then
    {| out := out w; buf := text; cells := cells w; escaped := true |}
  else {| out := out w; buf := text; cells := cells w; escaped := false |}.

Fixpoint Write (w : Writer) (s : string) : Writer :=
  match s with
  | EmptyString => w
  | String ch s' => Write (writeByte w ch) s'
  end.

(** The writer after a sequence of effects of [CmdImages]. *)
Fixpoint run (w : Writer) (evs : list event) : Writer :=
  match evs with
  | [] => w
  | Fprint s :: evs' => run (Write w s) evs'
  | FlushW :: evs' => run (Flush w) evs'
  | CallParse _ :: evs' => run w evs'
  end.

(** At the start of a line, outside an escaped segment. *)
Definition lineStart (w : Writer) : Prop := cells w = 0 /\ escaped w = false.

(** Inside a line that already has a cell. *)
Definition inLine (w : Writer) : Prop := cells w <> 0 /\ escaped w = false.

(** Text that, written at the start of a line, stays in the buffer. *)
Definition held (s : string) : Prop :=
  forall w, lineStart w -> out (Write w s) = out w /\ lineStart (Write w s).

(** Text that, written at the start of a line on an empty buffer, is
    formatted and handed on at once, leaving the buffer empty. *)
Definition passed (s : string) : Prop :=
  forall w, lineStart w -> buf w = "" ->
    out (Write w s) = (out w ++ format s)%string
    /\ buf (Write w s) = "" /\ lineStart (Write w s).

End Format.

(** A byte that takes part in the cell structure. *)
Definition control (c : ascii) : bool := isTab c || isBreak c || isEscape c.

(** A string without such bytes. *)
Fixpoint plain (s : string) : bool :=
  match s with
  | EmptyString => true
  | String c s' => negb (control c) && plain s'
  end.

End tabwriter.

(** ** Assumptions on the text of the cells

    Image ids are hexadecimal digests, repository names, tags and
    digests come out of the reference grammar, and the duration and
    size formatters print digits, letters, spaces and dots: none of
    them contains a tab, a line break or the escape byte. *)

Section Cells.
Variable error : Type.
Variable ParseNamed : string -> error + Named.
Variable TruncateID : string -> string.
Variable HumanDurationSince : nat -> Z -> string.
Variable HumanSize : Z -> string.

Definition plainIDs (noTrunc : bool) (images : list Image) : Prop :=
  Forall (fun image => tabwriter.plain (displayID TruncateID noTrunc image) = true)
    images.

Definition plainNamed (ref : Named) : Prop :=
  tabwriter.plain (Name ref) = true
  /\ (forall d, asDigested ref = Some d -> tabwriter.plain d = true)
  /\ (forall t, asTagged ref = Some t -> tabwriter.plain t = true).

Definition plainCells (noTrunc : bool) (images : list Image) : Prop :=
  (forall s ref, ParseNamed s = inr ref -> plainNamed ref)
  /\ (forall k c, tabwriter.plain (HumanDurationSince k c) = true)
  /\ (forall n, tabwriter.plain (HumanSize n) = true)
  /\ plainIDs noTrunc images.

(** What the loops may emit: parser calls and rows, never a flush. *)
Definition rowEvent (quiet noTrunc showDigests : bool) (images : list Image)
    (ev : event) : Prop :=
  match ev with
  | CallParse _ => True
  | Fprint line =>
      isRow ParseNamed TruncateID HumanDurationSince HumanSize
        quiet noTrunc showDigests images line
  | FlushW => False
  end.

End Cells.

(** [p] occurs in [s]. *)
Fixpoint infixb (p s : string) : bool :=
  String.prefix p s
  || match s with
     | EmptyString => false
     | String _ s' => infixb p s'
     end.

(** ** The records in memory

    In the program the two lists of a record are Go slices, and line 86
    builds the combined list with [append], which writes into the
    spare capacity of [repoTags] when there is room and into a fresh
    array otherwise.  This is the only write the function makes to
    memory it shares with the records.  The model below keeps the
    slices in a store of string cells, runs the same loops over it,
    and is related to the list version above. *)

(** A slice: address of its first cell, length, capacity. *)
Record slice := mkSlice {
  base : nat;
  len : nat;
  cap : nat
}.

(** [types.Image] with its slices. *)
Record ImageS := mkImageS {
  sID : string;
  sRepoTags : slice;
  sRepoDigests : slice;
  sCreated : Z;
  sSize : Z
}.

(** The cells, and the address from which fresh arrays are taken. *)
Record heap := mkHeap {
  cell : nat -> string;
  next : nat
}.

Section Store.
Variable error : Type.
Variable ParseNamed : string -> error + Named.
Variable TruncateID : string -> string.
Variable HumanDurationSince : nat -> Z -> string.
Variable HumanSize : Z -> string.
(** The capacity the runtime picks for a grown slice, from the old
    capacity and the length needed. *)
Variable growth : nat -> nat -> nat.

(** The elements of a slice. *)
Definition load (m : nat -> string) (s : slice) : list string :=
  map (fun i => m (base s + i)) (seq 0 (len s)).

(** Cells [p], [p+1], ... overwritten with [vs]. *)
Definition storeAt (m : nat -> string) (p : nat) (vs : list string) : nat -> string :=
  fun a =>
    if Nat.leb p a && Nat.ltb a (p + length vs) then nth (a - p) vs ""%string
    else m a.

(** [append(s, vs...)]. *)
Definition append (h : heap) (s : slice) (vs : list string) : heap * slice :=
  let n := len s + length vs in
  if Nat.leb n (cap s) then
    (mkHeap (storeAt (cell h) (base s + len s) vs) (next h),
     mkSlice (base s) n (cap s))
  else
    let c := Nat.max n (growth (cap s) n) in
    (mkHeap (storeAt (cell h) (next h) (load (cell h) s ++ vs)) (next h + c),
     mkSlice (next h) n c).

(** The record as the function reads it from the store. *)
Definition view (m : nat -> string) (image : ImageS) : Image :=
  mkImage (sID image) (load m (sRepoTags image)) (load m (sRepoDigests image))
    (sCreated image) (sSize image).

(** Line 80 on slices. *)
Definition danglingS (m : nat -> string) (repoTags repoDigests : slice) : bool :=
  Nat.eqb (len repoTags) 1 && String.eqb (m (base repoTags)) "<none>:<none>"
  && Nat.eqb (len repoDigests) 1 && String.eqb (m (base repoDigests)) "<none>@<none>".

(** Lines 77-86 on slices: the store after [append] and the combined
    slice. *)
Definition tagsAndDigestsS (h : heap) (image : ImageS) : heap * slice :=
  let repoTags := sRepoTags image in
  let repoDigests := sRepoDigests image in
  let repoDigests :=
    if danglingS (cell h) repoTags repoDigests then mkSlice 0 0 0 else repoDigests in
  append h repoTags (load (cell h) repoDigests).

(** Lines 71-118 on the store: the outer loop, returning the store it
    leaves behind. *)
Fixpoint listImagesS (quiet noTrunc showDigests : bool) (images : list ImageS)
    (h : heap) (k : nat) : heap * (list event * nat * (error + unit)) :=
  match images with
  | [] => (h, ([], k, inr tt))
  | image :: rest =>
      let img := view (cell h) image in
      let '(h1, combined) := tagsAndDigestsS h image in
      let r := forM_ (load (cell h1) combined)
                 (listRef ParseNamed HumanDurationSince HumanSize quiet showDigests
                    (displayID TruncateID noTrunc img) img) k in
      match outcome r with
      | inl _ => (h1, r)
      | inr _ =>
          let '(h2, r2) := listImagesS quiet noTrunc showDigests rest h1 (clockReads r) in
          (h2, (events r ++ events r2, clockReads r2, outcome r2))
      end
  end.

(** The cells a slice shows, and the cells of its spare capacity. *)
Definition shown (s : slice) (a : nat) : Prop := base s <= a < base s + len s.
Definition spare (s : slice) (a : nat) : Prop := base s + len s <= a < base s + cap s.

(** The slices of the records lie in allocated memory, and no slice
    shows a cell of the spare capacity of a tag slice: true when every
    slice has its own array, as for records decoded from the daemon's
    answer. *)
Definition separated (h : heap) (images : list ImageS) : Prop :=
  forall image, In image images ->
    base (sRepoTags image) + cap (sRepoTags image) <= next h
    /\ base (sRepoTags image) + len (sRepoTags image) <= next h
    /\ base (sRepoDigests image) + len (sRepoDigests image) <= next h
    /\ forall image' a, In image' images -> spare (sRepoTags image') a ->
         ~ shown (sRepoTags image) a /\ ~ shown (sRepoDigests image) a.

End Store.

(** ** Sample collaborators, for concrete runs *)

Module Sample.

(** Splits [name:tag] and [name@digest]; a string without a name, or
  with a tab, a line break or an escape byte, is malformed. *)
Fixpoint splitRef (s : string) : string * option (bool * string) :=
  match s with
  | EmptyString => ("", None)
  | String c s' =>
    if Ascii.eqb c ":" then ("", Some (false, s'))
    else if Ascii.eqb c "@" then ("", Some (true, s'))
    else let '(n, r) := splitRef s' in (String c n, r)
  end.

Definition ParseNamed (s : string) : string + Named :=
  if negb (tabwriter.plain s) then inl ("invalid reference format: " ++ s)%string
  else
  match splitRef s with
  | ("", _) => inl ("invalid reference format: " ++ s)%string
  | (n, None) => inr (mkNamed n None None)
  | (n, Some (true, d)) => inr (mkNamed n (Some d) None)
  | (n, Some (false, t)) => inr (mkNamed n None (Some t))
  end.

Fixpoint firstN (n : nat) (s : string) : string :=
  match n, s with
  | S n', String c s' => String c (firstN n' s')
  | _, _ => ""
  end.

Definition TruncateID (id : string) : string := firstN 12 id.
Definition HumanDurationSince (k : nat) (created : Z) : string := "2 hours".
Definition HumanSize (n : Z) : string := "1 MB".

Definition CmdImages := CmdImages ParseNamed TruncateID HumanDurationSince HumanSize.
Definition listImage := listImage ParseNamed TruncateID HumanDurationSince HumanSize.
Definition reconcile := reconcile ParseNamed.
Definition refFields := refFields ParseNamed.

(** Alignment left out: the buffered text goes through unchanged. *)
Definition format (s : string) : string := s.

Definition foo : Image :=
  mkImage "0123456789abcdef0123" ["library/foo:latest"] [] 1000 1048576.
Definition danglingImage : Image :=
  mkImage "aaaabbbbccccddddeeee" ["<none>:<none>"] ["<none>@<none>"] 1000 5.

(** Two tags, one of them the sentinel, and a digest. *)
Definition mixed : Image :=
  mkImage "0123456789abcdef0123" ["library/foo:latest"; "<none>:<none>"]
  ["library/foo@sha256:0a1b"] 1000 1048576.

(** A record whose second tag has no repository. *)
Definition broken : Image :=
  mkImage "0123456789abcdef0123" ["<none>:<none>"; ":latest"] [] 1000 1048576.


(** A store holding one record: the tag slice in cells 0-3 (one
  element, capacity four), the digest slice in cells 4-7. *)
Definition cells0 (a : nat) : string :=
  nth a ["library/foo:latest"; ""; ""; ""; "library/foo@sha256:0a1b"]%string ""%string.

Definition heap0 : heap := mkHeap cells0 8.

Definition fooS : ImageS :=
  mkImageS "0123456789abcdef0123" (mkSlice 0 1 4) (mkSlice 4 1 4) 1000 1048576.

(** The runtime doubles the capacity. *)
Definition growth (oldcap needed : nat) : nat := 2 * oldcap.

Definition listImagesS :=
  listImagesS ParseNamed TruncateID HumanDurationSince HumanSize growth.

End Sample.

(** ** The command line and the request (lines 23-60)

    Before the listing, [CmdImages] reads its flags, folds the
    [--filter] values into one argument set with [filters.ParseFlag],
    returning at the first value that is rejected, takes the repository
    name from the command line when there is exactly one argument, and
    asks the daemon for the images.  Flag parsing itself
    ([cmd.ParseFlags]) is the flag package's; its result is the record
    below. *)

(** What [cmd.ParseFlags] leaves in the flag variables. *)
Record Flags := mkFlags {
  fQuiet : bool;
  fAll : bool;
  fNoTrunc : bool;
  fShowDigests : bool;
  fFilter : list string;       (* flFilter.GetAll() *)
  fArgs : list string          (* the arguments after the flags *)
}.

(** [types.ImageListOptions], over the type of [filters.Args]. *)
Record ImageListOptions (Args : Type) := mkOptions {
  MatchName : string;
  All : bool;
  Filters : Args
}.

Arguments mkOptions {Args}.
Arguments MatchName {Args}.
Arguments All {Args}.
Arguments Filters {Args}.

Section Command.
Variable error : Type.
Variable ParseNamed : string -> error + Named.
Variable TruncateID : string -> string.
Variable HumanDurationSince : nat -> Z -> string.
Variable HumanSize : Z -> string.
(** [filters.Args], [filters.NewArgs()] and [filters.ParseFlag]. *)
Variable Args : Type.
Variable NewArgs : Args.
Variable ParseFlag : string -> Args -> error + Args.
(** [cli.client.ImageList]. *)
Variable ImageList : ImageListOptions Args -> error + list Image.

(** Lines 37-44: the loop over the filter values. *)
Fixpoint consolidate (fs : list string) (imageFilterArgs : Args) : error + Args :=
  match fs with
  | [] => inr imageFilterArgs
  | f :: fs' =>
      match ParseFlag f imageFilterArgs with
      | inl err => inl err
      | inr imageFilterArgs => consolidate fs' imageFilterArgs
      end
  end.

(** Lines 46-49: [matchName] stays empty unless [cmd.NArg() == 1]. *)
Definition matchNameOf (args : list string) : string :=
  match args with
  | [a] => a
  | _ => ""
  end.

(** Lines 23-123: the whole command. *)
Definition CmdImagesCommand (flags : Flags) : M error unit :=
  match consolidate (fFilter flags) NewArgs with
  | inl err => fail err
  | inr imageFilterArgs =>
      let matchName := matchNameOf (fArgs flags) in
      let options := mkOptions matchName (fAll flags) imageFilterArgs in
      CmdImages ParseNamed TruncateID HumanDurationSince HumanSize
        (fQuiet flags) (fNoTrunc flags) (fShowDigests flags) (ImageList options)
  end.

End Command.

(** A line that, written at the start of a line, is added to the
    buffer as it is and ends the line. *)
Definition keptLine (format : string -> string) (s : string) : Prop :=
  forall w, tabwriter.lineStart w ->
    tabwriter.Write format w s
    = tabwriter.mkWriter (tabwriter.out w) (tabwriter.buf w ++ s) 0 false.

(** The lines of a table, one after the other. *)
Definition joined (lines : list string) : string :=
  fold_right String.append ""%string lines.

(** The number of bytes of [s] that satisfy [p]: with [tabwriter.isTab]
    the cells ended in [s], with [tabwriter.isBreak] its line breaks. *)
Fixpoint countIf (p : ascii -> bool) (s : string) : nat :=
  match s with
  | EmptyString => 0
  | String c s' => (if p c then 1 else 0) + countIf p s'
  end.

(** The reference strings the parser is asked about. *)
Definition toParse (ss : list string) : list string :=
  filter (fun s => negb (HasPrefix s "<none>")) ss.

(** Sample filters and daemons. *)
Module SampleCommand.

Fixpoint hasEq (s : string) : bool :=
  match s with
  | EmptyString => false
  | String c s' => Ascii.eqb c "=" || hasEq s'
  end.

(** The argument set is the list of accepted [name=value] strings. *)
Definition ParseFlag (f : string) (a : list string) : string + list string :=
  if hasEq f then inr (a ++ [f])
  else inl "bad format of filter (expected name=value)"%string.

(** A daemon that answers with two records, and one that is down. *)
Definition ImageList (options : ImageListOptions (list string))
    : string + list Image :=
  inr [Sample.foo; Sample.danglingImage].

Definition ImageListDown (options : ImageListOptions (list string))
    : string + list Image :=
  inl "Cannot connect to the Docker daemon"%string.

Definition CmdImagesCommand :=
  CmdImagesCommand Sample.ParseNamed Sample.TruncateID Sample.HumanDurationSince
    Sample.HumanSize (@nil string) ParseFlag.

(** A record without any reference string. *)
Definition unreferenced : Image :=
  mkImage "ffff00001111222233334444" [] [] 1000 7.

(** A record whose two strings start with the sentinel but are not the
    exact pair. *)
Definition nearDangling : Image :=
  mkImage "9999888877776666" ["<none>:<none>"] ["<none>@sha256:0a1b"] 1000 7.

(** A record whose tag slice is full: [append] has to allocate. *)
Definition fullS : ImageS :=
  mkImageS "0123456789abcdef0123" (mkSlice 0 1 1) (mkSlice 4 1 4) 1000 1048576.

End SampleCommand.

(** * Properties *)

Unset Implicit Arguments.
Set Default Proof Using "Type".

(** ** The loops *)

Section Loops.
Variable error : Type.
Local Abbreviation M := (M error).

Lemma bind_ok A B (m : M A) (f : A -> M B) k e1 k1 a :
  m k = (e1, k1, inr a) ->
  bind m f k = (e1 ++ events (f a k1), clockReads (f a k1), outcome (f a k1)).
Proof.
  intros H. unfold bind, events, clockReads, outcome. rewrite H.
  destruct (f a k1) as [[e2 k2] r]. reflexivity.
Qed.

Lemma bind_err A B (m : M A) (f : A -> M B) k e1 k1 err :
  m k = (e1, k1, inl err) -> bind m f k = (e1, k1, inl err).
Proof. intros H. unfold bind. rewrite H. reflexivity. Qed.

Lemma triple_eta E A (r : list event * nat * (E + A)) :
  r = (events r, clockReads r, outcome r).
Proof. destruct r as [[e k] o]. reflexivity. Qed.

Lemma writes_app e1 e2 : writes (e1 ++ e2) = writes e1 ++ writes e2.
Proof.
  induction e1 as [|[s| s|] e1 IH]; simpl; auto. now rewrite IH.
Qed.

Lemma parsed_app e1 e2 : parsed (e1 ++ e2) = parsed e1 ++ parsed e2.
Proof.
  induction e1 as [|[s| s|] e1 IH]; simpl; auto. now rewrite IH.
Qed.

(** A loop whose first element succeeds goes on with the rest. *)
Lemma forM_cons_ok A (body : A -> M unit) x xs k :
  outcome (body x k) = inr tt ->
  forM_ (x :: xs) body k =
    (events (body x k) ++ events (forM_ xs body (clockReads (body x k))),
     clockReads (forM_ xs body (clockReads (body x k))),
     outcome (forM_ xs body (clockReads (body x k)))).
Proof.
  intros H. simpl.
  apply (@bind_ok _ _ (body x) (fun _ => forM_ xs body) k _ _ tt).
  rewrite <- H. apply triple_eta.
Qed.

(** A loop whose first element fails stops there. *)
Lemma forM_cons_err A (body : A -> M unit) x xs k err :
  outcome (body x k) = inl err ->
  forM_ (x :: xs) body k = (events (body x k), clockReads (body x k), inl err).
Proof.
  intros H. simpl. apply bind_err.
  rewrite <- H. apply triple_eta.
Qed.

Lemma outcome_unit (r : list event * nat * (error + unit)) :
  (exists err, outcome r = inl err) \/ outcome r = inr tt.
Proof.
  destruct r as [[e k] [err|[]]]; [left; eexists|right]; reflexivity.
Qed.

End Loops.

(** ** One reference string *)

Section ReferenceSteps.
Variable error : Type.
Variable ParseNamed : string -> error + Named.
Variable HumanDurationSince : nat -> Z -> string.
Variable HumanSize : Z -> string.

Lemma refFields_none s k :
  HasPrefix s "<none>" = true ->
  refFields ParseNamed s k = ([], k, inr (none, none, none)).
Proof. intros H. unfold refFields. rewrite H. reflexivity. Qed.

Lemma refFields_parsed s k ref :
  HasPrefix s "<none>" = false -> ParseNamed s = inr ref ->
  refFields ParseNamed s k = ([CallParse s], k, inr (namedFields ref)).
Proof.
  intros H P. unfold refFields, bind, parseNamed.
  rewrite H, P. reflexivity.
Qed.

Lemma refFields_error s k err :
  HasPrefix s "<none>" = false -> ParseNamed s = inl err ->
  refFields ParseNamed s k = ([CallParse s], k, inl err).
Proof.
  intros H P. unfold refFields, bind, parseNamed.
  rewrite H, P. reflexivity.
Qed.

(** The fields of a string are computed without the clock, and without
    a write. *)
Lemma refFields_clock s k :
  clockReads (refFields ParseNamed s k) = k
  /\ writes (events (refFields ParseNamed s k)) = []
  /\ ~ In FlushW (events (refFields ParseNamed s k)).
Proof.
  destruct (HasPrefix s "<none>") eqn:H.
  - rewrite refFields_none by assumption. simpl. repeat split; auto.
  - destruct (ParseNamed s) as [err|ref] eqn:P.
    + rewrite (refFields_error s k err H P). simpl.
      repeat split; auto. intros [E|[]]; discriminate.
    + rewrite (refFields_parsed s k ref H P). simpl.
      repeat split; auto. intros [E|[]]; discriminate.
Qed.

Lemma printRow_run quiet showDigests id image f k :
  printRow error HumanDurationSince HumanSize quiet showDigests id image f k =
    ([Fprint (rowLine HumanDurationSince HumanSize quiet showDigests id image k f)],
     if quiet then k else S k, inr tt).
Proof.
  destruct f as [[repo tag] digest]. destruct quiet; reflexivity.
Qed.

Lemma listRef_ok quiet showDigests id image s k f :
  outcome (refFields ParseNamed s k) = inr f ->
  listRef ParseNamed HumanDurationSince HumanSize quiet showDigests id image s k =
    (events (refFields ParseNamed s k)
       ++ [Fprint (rowLine HumanDurationSince HumanSize quiet showDigests id image k f)],
     if quiet then k else S k, inr tt).
Proof.
  intros H. unfold listRef.
  rewrite (@bind_ok _ _ _ (refFields ParseNamed s) _ k
             (events (refFields ParseNamed s k)) k f).
  - rewrite printRow_run. reflexivity.
  - rewrite <- H. rewrite (triple_eta _ _ (refFields ParseNamed s k)) at 1.
    destruct (refFields_clock s k) as (-> & _). reflexivity.
Qed.

Lemma listRef_err quiet showDigests id image s k err :
  outcome (refFields ParseNamed s k) = inl err ->
  listRef ParseNamed HumanDurationSince HumanSize quiet showDigests id image s k =
    (events (refFields ParseNamed s k), k, inl err).
Proof.
  intros H. unfold listRef. apply bind_err.
  rewrite <- H. rewrite (triple_eta _ _ (refFields ParseNamed s k)) at 1.
  destruct (refFields_clock s k) as (-> & _). reflexivity.
Qed.

End ReferenceSteps.

Section Reference.
Variable error : Type.
Variable ParseNamed : string -> error + Named.
Variable HumanDurationSince : nat -> Z -> string.
Variable HumanSize : Z -> string.

Local Abbreviation fieldsWith := (@refFields error).
Local Abbreviation refFields := (refFields ParseNamed).
Local Abbreviation listRef := (listRef ParseNamed HumanDurationSince HumanSize).

(** C7: a reference string that starts with [<none>] gives the triple
    with repository, tag and digest all [<none>], and the parser is
    not called for it: neither the computation of the fields nor the
    whole loop body emits a parser call, and the fields are the same
    whatever the parser would answer. *)
Theorem none_prefix_defaults :
  forall s k, HasPrefix s "<none>" = true ->
    outcome (refFields s k) = inr ("<none>", "<none>", "<none>")
    /\ parsed (events (refFields s k)) = []
    /\ (forall quiet showDigests id image,
          parsed (events (listRef quiet showDigests id image s k)) = [])
    /\ (forall (otherParser : string -> error + Named),
          fieldsWith otherParser s k = refFields s k).
Proof.
  intros s k H. rewrite !refFields_none by assumption.
  repeat split; try reflexivity.
  - intros. erewrite listRef_ok by (rewrite refFields_none by assumption; reflexivity).
    rewrite refFields_none by assumption. reflexivity.
  - intros otherParser. now rewrite refFields_none.
Qed.

(** C10: a reference string that does not start with [<none>] and
    parses to a reference that is neither Tagged nor Digested gives the
    parsed name as repository and leaves tag and digest at [<none>]. *)
Theorem bare_name_fields :
  forall s k ref,
    HasPrefix s "<none>" = false ->
    ParseNamed s = inr ref ->
    asTagged ref = None -> asDigested ref = None ->
    outcome (refFields s k) = inr (Name ref, "<none>", "<none>").
Proof.
  intros s k ref H P T D. rewrite (refFields_parsed _ _ _ k _ H P).
  unfold namedFields. rewrite T, D. reflexivity.
Qed.

(** C4: in every triple at most one of tag and digest differs from
    [<none>].  A triple from a reference taken as Tagged (one that is
    not Digested, as the parser's references are never both) has the
    parsed tag and digest [<none>]; a triple from a Digested reference
    has the parsed digest and tag [<none>]. *)
Theorem tag_or_digest_none :
  forall s k repo tag digest,
    outcome (refFields s k) = inr (repo, tag, digest) ->
    (tag = "<none>" \/ digest = "<none>")
    /\ (forall ref, HasPrefix s "<none>" = false -> ParseNamed s = inr ref ->
          repo = Name ref
          /\ (forall t, asTagged ref = Some t -> asDigested ref = None ->
                tag = t /\ digest = "<none>")
          /\ (forall d, asDigested ref = Some d ->
                digest = d /\ tag = "<none>")).
Proof.
  intros s k repo tag digest H.
  destruct (HasPrefix s "<none>") eqn:Hp.
  - rewrite refFields_none in H by assumption. inversion H; subst.
    split; [now left|]. intros; discriminate.
  - destruct (ParseNamed s) as [err|ref] eqn:P.
    + rewrite (refFields_error _ _ _ k _ Hp P) in H. discriminate.
    + rewrite (refFields_parsed _ _ _ k _ Hp P) in H. unfold namedFields, outcome in H.
      simpl in H.
      destruct (asDigested ref) as [d|] eqn:D; [|destruct (asTagged ref) as [t|] eqn:T];
        inversion H; subst; clear H.
      * split; [now left|]. intros ref' _ E. inversion E; subst ref'.
        rewrite D. repeat split; intros; try congruence.
      * split; [now right|]. intros ref' _ E. inversion E; subst ref'.
        rewrite D, T. repeat split; intros; try congruence.
      * split; [now left|]. intros ref' _ E. inversion E; subst ref'.
        rewrite D, T. repeat split; intros; try congruence.
Qed.

End Reference.

(** ** One record and the whole listing *)

Section ListingSteps.
Variable error : Type.
Variable ParseNamed : string -> error + Named.
Variable TruncateID : string -> string.
Variable HumanDurationSince : nat -> Z -> string.
Variable HumanSize : Z -> string.

Lemma listImage_eq quiet noTrunc showDigests image :
  listImage ParseNamed TruncateID HumanDurationSince HumanSize
    quiet noTrunc showDigests image
  = forM_ (tagsAndDigests image)
      (listRef ParseNamed HumanDurationSince HumanSize quiet showDigests
         (displayID TruncateID noTrunc image) image).
Proof. reflexivity. Qed.

Lemma rowText_eq showDigests id image k repo tag digest :
  rowText HumanDurationSince HumanSize showDigests id image k repo tag digest
  = if showDigests then
      (repo ++ TAB ++ tag ++ TAB ++ digest ++ TAB ++ id ++ TAB
       ++ HumanDurationSince k (Created image) ++ " ago" ++ TAB
       ++ HumanSize (Size image) ++ NL)%string
    else
      (repo ++ TAB ++ tag ++ TAB ++ id ++ TAB
       ++ HumanDurationSince k (Created image) ++ " ago" ++ TAB
       ++ HumanSize (Size image) ++ NL)%string.
Proof. reflexivity. Qed.

Lemma reconcile_eq image :
  reconcile ParseNamed image = mapM (refFields ParseNamed) (tagsAndDigests image).
Proof. reflexivity. Qed.

(** The listing is the header (unless quiet), the outer loop, and the
    flush (unless quiet, and only when the loop ended normally). *)
Lemma CmdImages_run quiet noTrunc showDigests images k :
  let loop := forM_ images
                (listImage ParseNamed TruncateID HumanDurationSince HumanSize
                   quiet noTrunc showDigests) k in
  CmdImages ParseNamed TruncateID HumanDurationSince HumanSize
    quiet noTrunc showDigests (inr images) k
  = ((if quiet then [] else [Fprint (header showDigests)])
       ++ events loop
       ++ match outcome loop with
          | inr _ => if quiet then [] else [FlushW]
          | inl _ => []
          end,
     clockReads loop, outcome loop).
Proof.
  intros loop. unfold CmdImages, bind. subst loop.
  destruct quiet; simpl;
    destruct (forM_ images _ k) as [[e1 k1] [err|[]]]; simpl;
    rewrite ?app_nil_r; reflexivity.
Qed.

End ListingSteps.

Section Listing.
Variable error : Type.
Variable ParseNamed : string -> error + Named.
Variable TruncateID : string -> string.
Variable HumanDurationSince : nat -> Z -> string.
Variable HumanSize : Z -> string.

Local Abbreviation refFields := (refFields ParseNamed).
Local Abbreviation listRef := (listRef ParseNamed HumanDurationSince HumanSize).
Local Abbreviation listImage := (listImage ParseNamed TruncateID HumanDurationSince HumanSize).
Local Abbreviation CmdImages := (CmdImages ParseNamed TruncateID HumanDurationSince HumanSize).
Local Abbreviation reconcile := (reconcile ParseNamed).
Local Abbreviation rowLine := (rowLine HumanDurationSince HumanSize).
Local Abbreviation rowText := (rowText HumanDurationSince HumanSize).
Local Abbreviation rowsOf := (rowsOf HumanDurationSince HumanSize).
Local Abbreviation displayID := (displayID TruncateID).
Local Abbreviation goodRef := (goodRef ParseNamed).
Local Abbreviation badRef := (badRef ParseNamed).
Local Abbreviation fieldsOf := (fieldsOf ParseNamed).

Lemma good_or_bad s : goodRef s \/ exists err, badRef s err.
Proof.
  unfold goodRef, badRef. destruct (HasPrefix s "<none>"); [now left; left|].
  destruct (ParseNamed s) as [err|ref]; [right|left; right]; eauto.
Qed.

Lemma goodRef_fields s : goodRef s -> exists f, fieldsOf s f.
Proof.
  intros [H|[ref P]].
  - exists (none, none, none). intros k. now rewrite refFields_none.
  - destruct (HasPrefix s "<none>") eqn:H.
    + exists (none, none, none). intros k. now rewrite refFields_none.
    + exists (namedFields ref). intros k. now rewrite (refFields_parsed _ _ _ _ _ H P).
Qed.

Lemma badRef_fields s err k :
  badRef s err -> refFields s k = ([CallParse s], k, inl err).
Proof. intros [H P]. now apply refFields_error. Qed.

Lemma fieldsOf_outcome s f k : fieldsOf s f -> outcome (refFields s k) = inr f.
Proof. intros H. rewrite (H k). reflexivity. Qed.

(** The triples of a list of good strings: one per string, in order. *)
Lemma mapM_good ss :
  Forall goodRef ss ->
  exists fs, Forall2 fieldsOf ss fs
    /\ forall k, outcome (mapM refFields ss k) = inr fs
                 /\ clockReads (mapM refFields ss k) = k.
Proof.
  induction 1 as [|s ss G _ IH].
  - exists []. split; [constructor|]. intros k. split; reflexivity.
  - destruct IH as (fs & F2 & IH). destruct (goodRef_fields s G) as (f & Hf).
    exists (f :: fs). split; [now constructor|]. intros k.
    destruct (IH k) as [Ho Hk]. simpl.
    rewrite (@bind_ok _ _ _ (refFields s) _ k _ k f (Hf k)).
    unfold bind. destruct (mapM refFields ss k) as [[e2 k2] o].
    unfold outcome, clockReads in *. simpl in *. subst. split; reflexivity.
Qed.

(** The inner loop over good strings prints one row per triple, in
    order, and ends normally. *)
Lemma inner_rows quiet showDigests id image ss fs :
  Forall2 fieldsOf ss fs ->
  forall k,
    outcome (forM_ ss (listRef quiet showDigests id image) k) = inr tt
    /\ writes (events (forM_ ss (listRef quiet showDigests id image) k))
       = rowsOf quiet showDigests id image k fs
    /\ clockReads (forM_ ss (listRef quiet showDigests id image) k)
       = (if quiet then k else k + length ss).
Proof.
  induction 1 as [|s f ss fs Hf _ IH]; intros k.
  - simpl. destruct quiet; repeat split; auto.
  - pose proof (@listRef_ok _ ParseNamed HumanDurationSince HumanSize quiet
                  showDigests id image s k f (fieldsOf_outcome s f k Hf)) as L.
    destruct (IH (if quiet then k else S k)) as (Ho & Hw & Hk).
    destruct (refFields_clock _ ParseNamed s k) as (_ & E & _).
    rewrite forM_cons_ok by (rewrite L; reflexivity).
    rewrite L. unfold events, clockReads, outcome in *. simpl fst. simpl snd.
    repeat split.
    + exact Ho.
    + rewrite !writes_app, Hw, E. reflexivity.
    + rewrite Hk. destruct quiet; simpl; lia.
Qed.


(** The dangling test of line 80, as a statement about the two lists. *)
Lemma dangling_spec repoTags repoDigests :
  dangling repoTags repoDigests = true <->
  repoTags = ["<none>:<none>"%string] /\ repoDigests = ["<none>@<none>"%string].
Proof.
  unfold dangling. split.
  - destruct repoTags as [|t [|? ?]]; try discriminate.
    destruct repoDigests as [|d [|? ?]]; try discriminate.
    intros H. apply andb_prop in H. destruct H as [Ht Hd].
    apply String.eqb_eq in Ht, Hd. now subst.
  - intros [-> ->]. reflexivity.
Qed.

Lemma tagsAndDigests_dangling image :
  RepoTags image = ["<none>:<none>"%string] ->
  RepoDigests image = ["<none>@<none>"%string] ->
  tagsAndDigests image = ["<none>:<none>"%string].
Proof. intros Ht Hd. unfold tagsAndDigests. rewrite Ht, Hd. reflexivity. Qed.

Lemma tagsAndDigests_all image :
  ~ (RepoTags image = ["<none>:<none>"%string]
     /\ RepoDigests image = ["<none>@<none>"%string]) ->
  tagsAndDigests image = RepoTags image ++ RepoDigests image.
Proof.
  intros H. unfold tagsAndDigests.
  destruct (dangling (RepoTags image) (RepoDigests image)) eqn:D; [|reflexivity].
  apply dangling_spec in D. contradiction.
Qed.

Lemma listImage_rows quiet noTrunc showDigests image fs :
  Forall2 fieldsOf (tagsAndDigests image) fs ->
  forall k,
    outcome (listImage quiet noTrunc showDigests image k) = inr tt
    /\ writes (events (listImage quiet noTrunc showDigests image k))
       = rowsOf quiet showDigests (displayID noTrunc image) image k fs.
Proof.
  intros F k. rewrite listImage_eq.
  destruct (inner_rows quiet showDigests (displayID noTrunc image) image _ _ F k)
    as (Ho & Hw & _).
  split; assumption.
Qed.

(** C1: a record whose tag list is exactly [<none>:<none>] and whose
    digest list is exactly [<none>@<none>] has its digest list
    dropped: the combined list is the tag list alone, one triple is
    computed, with repository, tag and digest all [<none>], and the
    record gives exactly one row, never two. *)
Theorem dangling_record_one_row :
  forall image,
    RepoTags image = ["<none>:<none>"%string] ->
    RepoDigests image = ["<none>@<none>"%string] ->
    tagsAndDigests image = RepoTags image
    /\ (forall k,
          outcome (reconcile image k) = inr [("<none>", "<none>", "<none>")%string])
    /\ (forall quiet noTrunc showDigests k,
          outcome (listImage quiet noTrunc showDigests image k) = inr tt
          /\ writes (events (listImage quiet noTrunc showDigests image k))
             = [rowLine quiet showDigests (displayID noTrunc image) image k
                  ("<none>", "<none>", "<none>")%string]).
Proof.
  intros image Ht Hd.
  assert (E := tagsAndDigests_dangling image Ht Hd).
  split; [congruence|]. split.
  - intros k. rewrite reconcile_eq, E. reflexivity.
  - intros quiet noTrunc showDigests k.
    apply (listImage_rows quiet noTrunc showDigests image
             [("<none>", "<none>", "<none>")%string]).
    rewrite E. constructor; [|constructor].
    intros k'. reflexivity.
Qed.

(** C2: a record that is not the dangling pair, with N tag strings and
    M digest strings that all start with [<none>] or parse, gives N+M
    triples: those of the tag strings, in their order, followed by
    those of the digest strings, in their order; one row is printed
    per triple in that same order, and the rows of a record are
    followed by the rows of the records after it (nothing is sorted). *)
Theorem tags_then_digests :
  forall image,
    ~ (RepoTags image = ["<none>:<none>"%string]
       /\ RepoDigests image = ["<none>@<none>"%string]) ->
    Forall goodRef (RepoTags image ++ RepoDigests image) ->
    exists ts ds,
      Forall2 fieldsOf (RepoTags image) ts
      /\ Forall2 fieldsOf (RepoDigests image) ds
      /\ length (ts ++ ds) = length (RepoTags image) + length (RepoDigests image)
      /\ (forall k, outcome (reconcile image k) = inr (ts ++ ds))
      /\ (forall quiet noTrunc showDigests k,
            outcome (listImage quiet noTrunc showDigests image k) = inr tt
            /\ writes (events (listImage quiet noTrunc showDigests image k))
               = rowsOf quiet showDigests (displayID noTrunc image) image k (ts ++ ds)
            /\ forall rest,
                 writes (events (forM_ (image :: rest)
                                   (listImage quiet noTrunc showDigests) k))
                 = writes (events (listImage quiet noTrunc showDigests image k))
                   ++ writes (events (forM_ rest (listImage quiet noTrunc showDigests)
                       (clockReads (listImage quiet noTrunc showDigests image k))))).
Proof.
  intros image ND G.
  assert (E := tagsAndDigests_all image ND).
  destruct (mapM_good _ G) as (fs & F2 & Hm).
  destruct (Forall2_app_inv_l _ _ F2) as (ts & ds & Ft & Fd & ->).
  exists ts, ds. split; [assumption|]. split; [assumption|]. split.
  - rewrite length_app. f_equal; symmetry; eapply Forall2_length; eassumption.
  - split.
    + intros k. rewrite reconcile_eq, E. apply Hm.
    + intros quiet noTrunc showDigests k.
      assert (F2' : Forall2 fieldsOf (tagsAndDigests image) (ts ++ ds))
        by (rewrite E; assumption).
      destruct (listImage_rows quiet noTrunc showDigests image _ F2' k) as [Ho Hw].
      split; [assumption|]. split; [assumption|].
      intros rest. rewrite forM_cons_ok by assumption.
      unfold events at 1. simpl fst. apply writes_app.
Qed.

End Listing.

(** ** The tab writer: what is held back and what is passed on *)

Section TabWriter.
Import tabwriter.
Variable format : string -> string.

Local Abbreviation Write := (Write format).
Local Abbreviation run := (run format).
Local Abbreviation held := (held format).
Local Abbreviation passed := (passed format).

Lemma Write_app w a b : Write w (a ++ b) = Write (Write w a) b.
Proof. revert w. induction a as [|c a IH]; intros w; simpl; auto. Qed.

Lemma plain_app a b : plain (a ++ b) = plain a && plain b.
Proof.
  induction a as [|c a IH]; simpl; auto. rewrite IH. apply andb_assoc.
Qed.

Lemma append_assoc (a b c : string) : ((a ++ b) ++ c = a ++ (b ++ c))%string.
Proof. induction a as [|x a IH]; simpl; congruence. Qed.

Lemma append_nil_r (a : string) : (a ++ "" = a)%string.
Proof. induction a as [|x a IH]; simpl; congruence. Qed.

(** Plain text only grows the buffer. *)
Lemma Write_plain s : forall w,
  plain s = true -> escaped w = false ->
  Write w s = mkWriter (out w) (buf w ++ s) (cells w) false.
Proof.
  induction s as [|c s IH]; intros w P E; simpl in *.
  - rewrite append_nil_r. destruct w; simpl in *; congruence.
  - apply andb_prop in P. destruct P as [C P].
    apply negb_true_iff in C. unfold control in C.
    apply orb_false_elim in C. destruct C as [C Hesc].
    apply orb_false_elim in C. destruct C as [Htab Hbrk].
    rewrite IH by (try assumption; unfold writeByte;
                   rewrite E, Htab, Hbrk, Hesc; reflexivity).
    unfold writeByte. rewrite E, Htab, Hbrk, Hesc. simpl.
    rewrite append_assoc. reflexivity.
Qed.

Lemma Write_TAB w :
  escaped w = false ->
  Write w TAB = mkWriter (out w) (buf w ++ TAB) (S (cells w)) false.
Proof. intros E. simpl. unfold writeByte. rewrite E. reflexivity. Qed.

Lemma Write_NL_inLine w :
  inLine w -> Write w NL = mkWriter (out w) (buf w ++ NL) 0 false.
Proof.
  intros [C E]. simpl. unfold writeByte. rewrite E. simpl.
  destruct (cells w); [contradiction|reflexivity].
Qed.

Lemma Write_NL_lineStart w :
  lineStart w ->
  Write w NL = mkWriter (out w ++ format (buf w ++ NL)) "" 0 false.
Proof.
  intros [C E]. simpl. unfold writeByte. rewrite E, C. reflexivity.
Qed.

(** Steps of a line, as seen from [out]. *)
Lemma plain_lineStart s w o :
  plain s = true -> out w = o /\ lineStart w ->
  out (Write w s) = o /\ lineStart (Write w s).
Proof.
  intros P (O & C & E). rewrite Write_plain by assumption.
  unfold lineStart. simpl. auto.
Qed.

Lemma plain_inLine s w o :
  plain s = true -> out w = o /\ inLine w ->
  out (Write w s) = o /\ inLine (Write w s).
Proof.
  intros P (O & C & E). rewrite Write_plain by assumption.
  unfold inLine. simpl. auto.
Qed.

Lemma TAB_lineStart w o :
  out w = o /\ lineStart w -> out (Write w TAB) = o /\ inLine (Write w TAB).
Proof.
  intros (O & C & E). rewrite Write_TAB by assumption.
  unfold inLine. simpl. auto.
Qed.

Lemma TAB_inLine w o :
  out w = o /\ inLine w -> out (Write w TAB) = o /\ inLine (Write w TAB).
Proof.
  intros (O & C & E). rewrite Write_TAB by assumption.
  unfold inLine. simpl. auto.
Qed.

Lemma NL_inLine w o :
  out w = o /\ inLine w -> out (Write w NL) = o /\ lineStart (Write w NL).
Proof.
  intros (O & I). rewrite Write_NL_inLine by assumption.
  unfold lineStart. simpl. auto.
Qed.

(** A line of at least two plain cells stays in the buffer. *)
Lemma held_cells c1 rest :
  plain c1 = true ->
  (forall w o, out w = o /\ inLine w ->
     out (Write w rest) = o /\ lineStart (Write w rest)) ->
  held (c1 ++ TAB ++ rest).
Proof.
  intros P R w L. rewrite !Write_app.
  apply R, TAB_lineStart, plain_lineStart; auto.
Qed.

Lemma more_cells c rest w o :
  plain c = true ->
  (forall w o, out w = o /\ inLine w ->
     out (Write w rest) = o /\ lineStart (Write w rest)) ->
  out w = o /\ inLine w ->
  out (Write w (c ++ TAB ++ rest)) = o /\ lineStart (Write w (c ++ TAB ++ rest)).
Proof.
  intros P R I. rewrite !Write_app.
  apply R, TAB_inLine, plain_inLine; auto.
Qed.

Lemma last_cell c w o :
  plain c = true -> out w = o /\ inLine w ->
  out (Write w (c ++ NL)) = o /\ lineStart (Write w (c ++ NL)).
Proof.
  intros P I. rewrite Write_app. apply NL_inLine, plain_inLine; auto.
Qed.

(** A line of one plain cell is passed on. *)
Lemma passed_single c : plain c = true -> passed (c ++ NL).
Proof.
  intros P w L B. rewrite Write_app.
  destruct L as [C E].
  rewrite (Write_plain c w P E).
  rewrite Write_NL_lineStart by (split; simpl; auto).
  unfold lineStart. simpl. rewrite B. simpl. auto.
Qed.

(** A run of held lines without a flush shows nothing. *)
Lemma run_held evs : forall w,
  Forall held (writes evs) -> ~ In FlushW evs -> lineStart w ->
  out (run w evs) = out w /\ lineStart (run w evs).
Proof.
  induction evs as [|[s|s|] evs IH]; intros w F N L; simpl in *.
  - auto.
  - apply IH; auto.
  - inversion F as [|? ? Hs F']; subst.
    destruct (Hs w L) as [O L']. rewrite <- O. apply IH; auto.
  - exfalso. auto.
Qed.

(** A run of passed lines without a flush shows every line. *)
Lemma run_passed evs : forall w,
  Forall passed (writes evs) -> ~ In FlushW evs ->
  lineStart w -> buf w = ""%string ->
  out (run w evs)
    = (out w ++ String.concat "" (map format (writes evs)))%string
  /\ buf (run w evs) = ""%string /\ lineStart (run w evs).
Proof.
  induction evs as [|[s|s|] evs IH]; intros w F N L B; simpl in *.
  - rewrite append_nil_r. auto.
  - apply IH; auto.
  - inversion F as [|? ? Hs F']; subst.
    destruct (Hs w L B) as (O & B' & L').
    destruct (IH (Write w s) F' (fun H => N (or_intror H)) L' B') as (O2 & B2 & L2).
    rewrite O2, O. split; [|auto].
    rewrite append_assoc. f_equal.
    destruct (map format (writes evs)) as [|x l]; simpl.
    + now rewrite append_nil_r.
    + reflexivity.
  - exfalso. auto.
Qed.

End TabWriter.

(** ** Loops in general *)

Section LoopFacts.
Variable error : Type.
Variable A : Type.
Local Abbreviation M := (M error).

Lemma forM_events (P : event -> Prop) (body : A -> M unit) xs :
  (forall x k, In x xs -> Forall P (events (body x k))) ->
  forall k, Forall P (events (forM_ xs body k)).
Proof.
  induction xs as [|x xs IH]; intros H k.
  - constructor.
  - destruct (outcome_unit error (body x k)) as [[err E]|E].
    + rewrite (forM_cons_err _ _ _ _ _ _ _ E). apply H. now left.
    + rewrite (forM_cons_ok _ _ _ _ _ _ E). unfold events at 1. simpl fst.
      apply Forall_app. split.
      * apply H. now left.
      * apply IH. intros y k' Hy. apply H. now right.
Qed.

Lemma forM_failure (body : A -> M unit) xs : forall k err,
  outcome (forM_ xs body k) = inl err ->
  exists x k', In x xs /\ outcome (body x k') = inl err.
Proof.
  induction xs as [|x xs IH]; intros k err H.
  - discriminate.
  - destruct (outcome_unit error (body x k)) as [[err' E]|E].
    + rewrite (forM_cons_err _ _ _ _ _ _ _ E) in H. inversion H; subst.
      exists x, k. split; [now left|assumption].
    + rewrite (forM_cons_ok _ _ _ _ _ _ E) in H.
      destruct (IH _ _ H) as (y & k' & Hy & Hb).
      exists y, k'. split; [now right|assumption].
Qed.

Lemma forM_success (body : A -> M unit) xs : forall k,
  outcome (forM_ xs body k) = inr tt ->
  forall x, In x xs -> exists k', outcome (body x k') = inr tt.
Proof.
  induction xs as [|x xs IH]; intros k H y Hy.
  - destruct Hy.
  - destruct (outcome_unit error (body x k)) as [[err' E]|E].
    + rewrite (forM_cons_err _ _ _ _ _ _ _ E) in H. discriminate.
    + destruct Hy as [<-|Hy]; [eauto|].
      rewrite (forM_cons_ok _ _ _ _ _ _ E) in H. eapply IH; eassumption.
Qed.

Lemma forM_ext (body1 body2 : A -> M unit) xs :
  (forall x k, body1 x k = body2 x k) ->
  forall k, forM_ xs body1 k = forM_ xs body2 k.
Proof.
  intros H. induction xs as [|x xs IH]; intros k; simpl; auto.
  unfold bind. rewrite H. destruct (body2 x k) as [[e1 k1] [err|[]]]; auto.
  now rewrite IH.
Qed.


End LoopFacts.

(** ** The table *)

Section Table.
Variable error : Type.
Variable ParseNamed : string -> error + Named.
Variable TruncateID : string -> string.
Variable HumanDurationSince : nat -> Z -> string.
Variable HumanSize : Z -> string.

Local Abbreviation refFields := (refFields ParseNamed).
Local Abbreviation listRef := (listRef ParseNamed HumanDurationSince HumanSize).
Local Abbreviation listImage := (listImage ParseNamed TruncateID HumanDurationSince HumanSize).
Local Abbreviation CmdImages := (CmdImages ParseNamed TruncateID HumanDurationSince HumanSize).
Local Abbreviation rowLine := (rowLine HumanDurationSince HumanSize).
Local Abbreviation rowText := (rowText HumanDurationSince HumanSize).
Local Abbreviation displayID := (displayID TruncateID).
Local Abbreviation goodRef := (goodRef ParseNamed).
Local Abbreviation badRef := (badRef ParseNamed).
Local Abbreviation isRow := (isRow ParseNamed TruncateID HumanDurationSince HumanSize).
Local Abbreviation rowEvent := (rowEvent ParseNamed TruncateID HumanDurationSince HumanSize).

Lemma listRef_events quiet noTrunc showDigests images image s k :
  In image images ->
  Forall (rowEvent quiet noTrunc showDigests images)
    (events (listRef quiet showDigests (displayID noTrunc image) image s k)).
Proof.
  intros Hin.
  destruct (HasPrefix s "<none>") eqn:Hp; [|destruct (ParseNamed s) as [err|ref] eqn:P].
  - rewrite (listRef_ok _ _ _ _ _ _ _ _ _ _ (none, none, none))
      by (now rewrite refFields_none).
    rewrite refFields_none by assumption. unfold events. simpl.
    constructor; [|constructor].
    exists image, k, (none, none, none). auto.
  - rewrite (listRef_err _ _ _ _ _ _ _ _ _ _ err)
      by (now rewrite (refFields_error _ _ _ _ _ Hp P)).
    rewrite (refFields_error _ _ _ _ _ Hp P). unfold events. simpl.
    constructor; [exact Logic.I|constructor].
  - rewrite (listRef_ok _ _ _ _ _ _ _ _ _ _ (namedFields ref))
      by (now rewrite (refFields_parsed _ _ _ _ _ Hp P)).
    rewrite (refFields_parsed _ _ _ _ _ Hp P). unfold events. simpl.
    constructor; [exact Logic.I|]. constructor; [|constructor].
    exists image, k, (namedFields ref). split; [assumption|]. split; [|reflexivity].
    right. eauto.
Qed.

Lemma loop_events quiet noTrunc showDigests images k :
  Forall (rowEvent quiet noTrunc showDigests images)
    (events (forM_ images (listImage quiet noTrunc showDigests) k)).
Proof.
  apply forM_events. intros image k' I. rewrite listImage_eq.
  apply forM_events. intros s k'' _. now apply listRef_events.
Qed.

Lemma rowEvent_split quiet noTrunc showDigests images evs :
  Forall (rowEvent quiet noTrunc showDigests images) evs ->
  Forall (isRow quiet noTrunc showDigests images) (writes evs)
  /\ ~ In FlushW evs.
Proof.
  induction 1 as [|[s|s|] evs H _ [IHw IHf]]; simpl.
  - split; [constructor|tauto].
  - split; [assumption|]. intros [E|E]; [discriminate|auto].
  - split; [now constructor|]. intros [E|E]; [discriminate|auto].
  - destruct H.
Qed.

Lemma quiet_row noTrunc showDigests images line :
  isRow true noTrunc showDigests images line ->
  exists image, In image images /\ line = (displayID noTrunc image ++ NL)%string.
Proof.
  intros (image & k & [[repo tag] digest] & I & _ & ->). eauto.
Qed.







(** *** The header *)

Lemma infixb_skip p a s : infixb p s = true -> infixb p (a ++ s) = true.
Proof.
  intros H. induction a as [|c a IH]; simpl; auto.
  rewrite IH. apply orb_true_r.
Qed.

Lemma rowText_ago showDigests id image k repo tag digest :
  infixb " ago" (rowText showDigests id image k repo tag digest) = true.
Proof.
  rewrite rowText_eq.
  destruct showDigests.
  - do 9 apply infixb_skip. reflexivity.
  - do 7 apply infixb_skip. reflexivity.
Qed.

Lemma row_not_header noTrunc showDigests images line :
  isRow false noTrunc showDigests images line -> line <> header showDigests.
Proof.
  intros (image & k & [[repo tag] digest] & _ & _ & ->) E.
  assert (H := rowText_ago showDigests (displayID noTrunc image) image k repo tag digest).
  change (rowLine false showDigests (displayID noTrunc image) image k (repo, tag, digest))
    with (rowText showDigests (displayID noTrunc image) image k repo tag digest) in E.
  rewrite E in H. destruct showDigests; discriminate.
Qed.

(** C8: without the quiet flag the header is the first line written
    and no later line equals it; with the quiet flag the header
    statement writes nothing and all lines are rows.  The header holds
    the six names REPOSITORY, TAG, DIGEST, IMAGE ID, CREATED, SIZE
    when [showDigests] is set and the five names without DIGEST
    otherwise, separated by tabs. *)
Theorem header_once_before_rows :
  forall quiet noTrunc showDigests images k,
    writes (events (CmdImages quiet noTrunc showDigests (inr images) k))
    = (if quiet then [] else [header showDigests])
      ++ writes (events (forM_ images (listImage quiet noTrunc showDigests) k))
    /\ Forall (isRow quiet noTrunc showDigests images)
         (writes (events (forM_ images (listImage quiet noTrunc showDigests) k)))
    /\ (quiet = false ->
        ~ In (header showDigests)
            (writes (events (forM_ images (listImage quiet noTrunc showDigests) k))))
    /\ header true
       = (String.concat TAB
            ["REPOSITORY"; "TAG"; "DIGEST"; "IMAGE ID"; "CREATED"; "SIZE"] ++ NL)%string
    /\ header false
       = (String.concat TAB
            ["REPOSITORY"; "TAG"; "IMAGE ID"; "CREATED"; "SIZE"] ++ NL)%string.
Proof.
  intros quiet noTrunc showDigests images k.
  destruct (rowEvent_split quiet noTrunc showDigests images _
              (loop_events quiet noTrunc showDigests images k)) as [R _].
  split; [|split; [exact R|split; [|split; reflexivity]]].
  - rewrite CmdImages_run. unfold events at 1. simpl fst.
    rewrite !writes_app. f_equal; [destruct quiet; reflexivity|].
    destruct (outcome _); destruct quiet; simpl; now rewrite app_nil_r.
  - intros -> I. rewrite Forall_forall in R.
    exact (row_not_header _ _ _ _ (R _ I) eq_refl).
Qed.

End Table.

(** ** What reaches the output stream *)

Section Visible.
Import tabwriter.
Variable error : Type.
Variable ParseNamed : string -> error + Named.
Variable TruncateID : string -> string.
Variable HumanDurationSince : nat -> Z -> string.
Variable HumanSize : Z -> string.

Local Abbreviation refFields := (refFields ParseNamed).
Local Abbreviation listRef := (listRef ParseNamed HumanDurationSince HumanSize).
Local Abbreviation listImage := (listImage ParseNamed TruncateID HumanDurationSince HumanSize).
Local Abbreviation CmdImages := (CmdImages ParseNamed TruncateID HumanDurationSince HumanSize).
Local Abbreviation rowLine := (rowLine HumanDurationSince HumanSize).
Local Abbreviation rowText := (rowText HumanDurationSince HumanSize).
Local Abbreviation displayID := (displayID TruncateID).
Local Abbreviation badRef := (badRef ParseNamed).
Local Abbreviation isRow := (isRow ParseNamed TruncateID HumanDurationSince HumanSize).
Local Abbreviation plainIDs := (plainIDs TruncateID).
Local Abbreviation plainCells := (plainCells ParseNamed TruncateID HumanDurationSince HumanSize).

Lemma namedFields_plain ref :
  plainNamed ref ->
  plain (fst (fst (namedFields ref))) = true
  /\ plain (snd (fst (namedFields ref))) = true
  /\ plain (snd (namedFields ref)) = true.
Proof.
  intros (N & D & T). unfold namedFields.
  destruct (asDigested ref) as [d|]; [|destruct (asTagged ref) as [t|]];
    simpl; repeat split; auto.
Qed.

Lemma header_held format showDigests : held format (header showDigests).
Proof.
  intros [o b c e] [C E]. simpl in C, E. subst.
  destruct showDigests; split; try split; reflexivity.
Qed.

Lemma rowText_held format showDigests id image k repo tag digest :
  plain repo = true -> plain tag = true -> plain digest = true ->
  plain id = true ->
  plain (HumanDurationSince k (Created image)) = true ->
  plain (HumanSize (Size image)) = true ->
  held format (rowText showDigests id image k repo tag digest).
Proof.
  intros Pr Pt Pd Pi Pa Ps. rewrite rowText_eq.
  assert (Pago : plain (HumanDurationSince k (Created image) ++ " ago") = true)
    by (rewrite plain_app, Pa; reflexivity).
  destruct showDigests.
  - apply held_cells; [assumption|]. intros w o.
    apply more_cells; [assumption|]. clear w o. intros w o.
    apply more_cells; [assumption|]. clear w o. intros w o.
    apply more_cells; [assumption|]. clear w o. intros w o.
    rewrite <- (append_assoc (HumanDurationSince k (Created image)) " ago").
    apply more_cells; [assumption|]. clear w o. intros w o.
    now apply last_cell.
  - apply held_cells; [assumption|]. intros w o.
    apply more_cells; [assumption|]. clear w o. intros w o.
    apply more_cells; [assumption|]. clear w o. intros w o.
    rewrite <- (append_assoc (HumanDurationSince k (Created image)) " ago").
    apply more_cells; [assumption|]. clear w o. intros w o.
    now apply last_cell.
Qed.

Lemma row_held format noTrunc showDigests images line :
  plainCells noTrunc images ->
  isRow false noTrunc showDigests images line -> held format line.
Proof.
  intros (Hp & Hd & Hs & Hi) (image & k & f & I & F & ->).
  red in Hi. rewrite Forall_forall in Hi.
  assert (Pf : plain (fst (fst f)) = true /\ plain (snd (fst f)) = true
               /\ plain (snd f) = true).
  { destruct F as [->|(s & ref & P & ->)].
    - repeat split; reflexivity.
    - apply namedFields_plain. eapply Hp. eassumption. }
  destruct f as [[repo tag] digest]. destruct Pf as (Pr & Pt & Pd).
  apply rowText_held; auto.
Qed.

Lemma tagsAndDigests_incl image s :
  In s (tagsAndDigests image) -> In s (RepoTags image ++ RepoDigests image).
Proof.
  unfold tagsAndDigests. destruct (dangling _ _); [|auto].
  rewrite app_nil_r. intros H. apply in_or_app. now left.
Qed.

Lemma bad_in_combined image s err :
  badRef s err -> In s (RepoTags image ++ RepoDigests image) ->
  In s (tagsAndDigests image).
Proof.
  intros [Hp _] I. unfold tagsAndDigests.
  destruct (dangling (RepoTags image) (RepoDigests image)) eqn:D; [|assumption].
  apply dangling_spec in D. destruct D as [Et Ed]. rewrite Et, Ed in I.
  destruct I as [<-|[<-|[]]]; discriminate.
Qed.

Lemma listRef_outcome_err quiet showDigests id image s k err :
  outcome (listRef quiet showDigests id image s k) = inl err -> badRef s err.
Proof.
  intros H. destruct (refFields s k) as [[e k1] [err'|f]] eqn:R.
  - rewrite (listRef_err _ _ _ _ _ _ _ _ _ _ err') in H by (now rewrite R).
    inversion H; subst err'. red.
    destruct (HasPrefix s "<none>") eqn:Hp.
    + rewrite refFields_none in R by assumption. discriminate.
    + split; [reflexivity|]. destruct (ParseNamed s) as [e'|ref] eqn:P.
      * rewrite (refFields_error _ _ _ _ _ Hp P) in R. congruence.
      * rewrite (refFields_parsed _ _ _ _ _ Hp P) in R. discriminate.
  - rewrite (listRef_ok _ _ _ _ _ _ _ _ _ _ f) in H by (now rewrite R).
    discriminate.
Qed.

Lemma listRef_bad quiet showDigests id image s k err :
  badRef s err ->
  outcome (listRef quiet showDigests id image s k) = inl err.
Proof.
  intros [Hp P].
  rewrite (listRef_err _ _ _ _ _ _ _ _ _ _ err);
    now rewrite (refFields_error _ _ _ _ _ Hp P).
Qed.

(** A bad string anywhere makes the outer loop end with the parser's
    error for a bad string of one of the records. *)
Lemma loop_fails quiet noTrunc showDigests images k :
  (exists image s err, In image images
     /\ In s (RepoTags image ++ RepoDigests image) /\ badRef s err) ->
  exists image s err, In image images
    /\ In s (RepoTags image ++ RepoDigests image) /\ badRef s err
    /\ outcome (forM_ images (listImage quiet noTrunc showDigests) k) = inl err.
Proof.
  intros (image & s & err & I & Is & B).
  destruct (outcome_unit error (forM_ images (listImage quiet noTrunc showDigests) k))
    as [[e E]|E].
  - destruct (forM_failure _ _ _ _ _ _ E) as (image' & k' & I' & E').
    rewrite listImage_eq in E'.
    destruct (forM_failure _ _ _ _ _ _ E') as (s' & k'' & Is' & E'').
    exists image', s', e. repeat split; auto.
    + now apply tagsAndDigests_incl.
    + eapply listRef_outcome_err; eassumption.
    + eapply listRef_outcome_err; eassumption.
  - exfalso.
    destruct (forM_success _ _ _ _ _ E image I) as (k' & E').
    rewrite listImage_eq in E'.
    destruct (forM_success _ _ _ _ _ E' s (bad_in_combined _ _ _ B Is)) as (k'' & E'').
    rewrite (listRef_bad _ _ _ _ _ _ _ B) in E''. discriminate.
Qed.


Lemma loop_no_flush quiet noTrunc showDigests images k :
  ~ In FlushW (events (forM_ images (listImage quiet noTrunc showDigests) k)).
Proof.
  apply (rowEvent_split _ ParseNamed TruncateID HumanDurationSince HumanSize
           quiet noTrunc showDigests images).
  apply loop_events.
Qed.

Lemma quiet_events noTrunc showDigests images k :
  events (CmdImages true noTrunc showDigests (inr images) k)
  = events (forM_ images (listImage true noTrunc showDigests) k).
Proof.
  rewrite CmdImages_run. unfold events at 1. simpl fst.
  destruct (outcome _); simpl; now rewrite app_nil_r.
Qed.

(** With the quiet flag and plain ids, whatever has been written has
    been handed on. *)
Lemma quiet_run_passed format noTrunc showDigests images k output :
  plainIDs noTrunc images ->
  out (run format (NewWriter output)
         (events (CmdImages true noTrunc showDigests (inr images) k)))
  = (output
     ++ String.concat ""
          (map format
             (writes (events (CmdImages true noTrunc showDigests (inr images) k)))))%string
  /\ buf (run format (NewWriter output)
            (events (CmdImages true noTrunc showDigests (inr images) k)))
     = ""%string.
Proof.
  intros PI. rewrite quiet_events.
  destruct (run_passed format
              (events (forM_ images (listImage true noTrunc showDigests) k))
              (NewWriter output)) as (O & Bf & _).
  - eapply Forall_impl;
      [|apply (rowEvent_split _ ParseNamed TruncateID HumanDurationSince HumanSize
                 true noTrunc showDigests images), loop_events].
    intros line R.
    destruct (quiet_row _ ParseNamed TruncateID HumanDurationSince HumanSize
                _ _ _ _ R) as (image & I & ->).
    apply passed_single. red in PI. rewrite Forall_forall in PI. now apply PI.
  - apply loop_no_flush.
  - split; reflexivity.
  - reflexivity.
  - split; assumption.
Qed.

(** C3, as the code has it: when a reference string of some record
    does not start with [<none>] and fails to parse, the call returns
    the parser's error for such a string unchanged and never flushes
    the tab writer.  Without the quiet flag (and with cells free of
    tabs, line breaks and escape bytes) nothing at all has reached the
    output stream, whatever it held before.  With the quiet flag (and
    ids free of such bytes) every row written before the failure has
    reached it. *)
Theorem parse_failure_aborts :
  forall quiet noTrunc showDigests images k,
    (exists image s err, In image images
       /\ In s (RepoTags image ++ RepoDigests image) /\ badRef s err) ->
    (exists image s err, In image images
       /\ In s (RepoTags image ++ RepoDigests image) /\ badRef s err
       /\ outcome (CmdImages quiet noTrunc showDigests (inr images) k) = inl err)
    /\ ~ In FlushW (events (CmdImages quiet noTrunc showDigests (inr images) k))
    /\ (quiet = false -> plainCells noTrunc images ->
        forall format output,
          out (run format (NewWriter output)
                 (events (CmdImages quiet noTrunc showDigests (inr images) k)))
          = output)
    /\ (quiet = true -> plainIDs noTrunc images ->
        forall format output,
          out (run format (NewWriter output)
                 (events (CmdImages quiet noTrunc showDigests (inr images) k)))
          = (output
             ++ String.concat ""
                  (map format
                     (writes (events (CmdImages quiet noTrunc showDigests
                                        (inr images) k)))))%string).
Proof.
  intros quiet noTrunc showDigests images k B.
  destruct (loop_fails quiet noTrunc showDigests images k B)
    as (image & s & err & I & Is & Hb & E).
  assert (NF := loop_no_flush quiet noTrunc showDigests images k).
  split; [|split; [|split]].
  - exists image, s, err. rewrite CmdImages_run. unfold outcome at 1. simpl snd.
    auto.
  - rewrite CmdImages_run. unfold events at 1. simpl fst. rewrite E, app_nil_r.
    intros H. apply in_app_or in H. destruct H as [H|H]; [|auto].
    destruct quiet; simpl in H; [auto|]. destruct H as [H|[]]. discriminate.
  - intros -> PC format output.
    rewrite CmdImages_run. unfold events at 1. simpl fst. rewrite E, app_nil_r.
    destruct (run_held format
                ([Fprint (header showDigests)]
                 ++ events (forM_ images (listImage false noTrunc showDigests) k))
                (NewWriter output)) as [O _].
    + rewrite writes_app. apply Forall_app. split.
      * constructor; [apply header_held|constructor].
      * eapply Forall_impl;
          [intros line R; exact (row_held format noTrunc showDigests images line PC R)|].
        apply (rowEvent_split _ ParseNamed TruncateID HumanDurationSince HumanSize
                 false noTrunc showDigests images), loop_events.
    + intros H. apply in_app_or in H. destruct H as [[H|[]]|H]; [discriminate|auto].
    + split; reflexivity.
    + exact O.
  - intros -> PI format output.
    apply (quiet_run_passed format noTrunc showDigests images k output PI).
Qed.


End Visible.

(** ** The records in memory *)

Section StoreFacts.
Variable error : Type.
Variable ParseNamed : string -> error + Named.
Variable TruncateID : string -> string.
Variable HumanDurationSince : nat -> Z -> string.
Variable HumanSize : Z -> string.
Variable growth : nat -> nat -> nat.

Local Abbreviation listImagesS :=
  (listImagesS ParseNamed TruncateID HumanDurationSince HumanSize growth).
Local Abbreviation listImage :=
  (listImage ParseNamed TruncateID HumanDurationSince HumanSize).

Lemma load_ext m1 m2 s :
  (forall a, shown s a -> m1 a = m2 a) -> load m1 s = load m2 s.
Proof.
  intros H. unfold load. apply map_ext_in. intros i Hi.
  apply in_seq in Hi. apply H. unfold shown. lia.
Qed.

Lemma length_load m s : length (load m s) = len s.
Proof. unfold load. now rewrite length_map, length_seq. Qed.

Lemma storeAt_out m p vs a :
  ~ (p <= a < p + length vs) -> storeAt m p vs a = m a.
Proof.
  intros H. unfold storeAt.
  destruct (Nat.leb p a) eqn:L; [|reflexivity].
  destruct (Nat.ltb a (p + length vs)) eqn:U; [|reflexivity].
  apply Nat.leb_le in L. apply Nat.ltb_lt in U. lia.
Qed.

Lemma storeAt_in m p vs i :
  i < length vs -> storeAt m p vs (p + i) = nth i vs ""%string.
Proof.
  intros H. unfold storeAt.
  replace (Nat.leb p (p + i)) with true by (symmetry; apply Nat.leb_le; lia).
  replace (Nat.ltb (p + i) (p + length vs)) with true
    by (symmetry; apply Nat.ltb_lt; lia).
  simpl. f_equal. lia.
Qed.

Lemma map_nth_seq (vs : list string) (f : nat -> string) :
  (forall i, i < length vs -> f i = nth i vs ""%string) ->
  map f (seq 0 (length vs)) = vs.
Proof.
  intros H. apply (nth_ext _ _ (f 0) ""%string).
  - now rewrite length_map, length_seq.
  - intros i Hi. rewrite length_map, length_seq in Hi.
    rewrite (map_nth f (seq 0 (length vs)) 0 i).
    rewrite seq_nth by assumption. simpl. now apply H.
Qed.

Lemma load_storeAt m p vs c :
  load (storeAt m p vs) (mkSlice p (length vs) c) = vs.
Proof.
  unfold load. simpl. apply map_nth_seq. intros i Hi. now apply storeAt_in.
Qed.

Lemma map_seq_from (f : nat -> string) n : forall l,
  map f (seq l n) = map (fun i => f (l + i)) (seq 0 n).
Proof.
  induction n as [|n IH]; intros l; simpl.
  - reflexivity.
  - rewrite Nat.add_0_r. f_equal. rewrite IH, <- seq_shift, map_map.
    apply map_ext. intros i. f_equal. lia.
Qed.

Lemma load_split m b l n c c1 c2 :
  load m (mkSlice b (l + n) c)
  = load m (mkSlice b l c1) ++ load m (mkSlice (b + l) n c2).
Proof.
  unfold load. simpl. rewrite seq_app, map_app. f_equal.
  simpl. rewrite map_seq_from. apply map_ext. intros i. f_equal. lia.
Qed.

Lemma append_load h s vs :
  load (cell (fst (append growth h s vs))) (snd (append growth h s vs))
  = load (cell h) s ++ vs.
Proof.
  destruct s as [b l c].
  unfold append. simpl. destruct (Nat.leb (l + length vs) c) eqn:L; simpl.
  - rewrite (load_split _ _ _ _ _ c c). f_equal.
    + apply load_ext. intros a [H1 H2]. simpl in *.
      apply storeAt_out. lia.
    + apply load_storeAt.
  - rewrite <- (length_load (cell h) (mkSlice b l c)) at 2. rewrite <- length_app.
    apply load_storeAt.
Qed.

(** [append] writes only into the spare capacity of its first argument
    or into fresh cells. *)
Lemma append_frame h s vs :
  next h <= next (fst (append growth h s vs))
  /\ forall a, a < next h -> ~ spare s a ->
       cell (fst (append growth h s vs)) a = cell h a.
Proof.
  unfold append. destruct (Nat.leb (len s + length vs) (cap s)) eqn:L; simpl.
  - split; [lia|]. intros a _ N. apply storeAt_out.
    apply Nat.leb_le in L. unfold spare in N. lia.
  - split; [lia|]. intros a A _. apply storeAt_out. lia.
Qed.

Lemma danglingS_view m t d :
  danglingS m t d = dangling (load m t) (load m d).
Proof.
  unfold danglingS, dangling, load.
  destruct (len t) as [|[|n]]; destruct (len d) as [|[|n']]; simpl;
    rewrite ?Nat.add_0_r; repeat (destruct (String.eqb _ _)); reflexivity.
Qed.

Lemma tagsAndDigestsS_load h image :
  load (cell (fst (tagsAndDigestsS growth h image))) (snd (tagsAndDigestsS growth h image))
  = tagsAndDigests (view (cell h) image).
Proof.
  unfold tagsAndDigestsS, tagsAndDigests. rewrite append_load. simpl.
  rewrite danglingS_view.
  destruct (dangling _ _); reflexivity.
Qed.

Lemma tagsAndDigestsS_frame h image :
  next h <= next (fst (tagsAndDigestsS growth h image))
  /\ forall a, a < next h -> ~ spare (sRepoTags image) a ->
       cell (fst (tagsAndDigestsS growth h image)) a = cell h a.
Proof. unfold tagsAndDigestsS. apply append_frame. Qed.


(** One round of the outer loop on the store. *)
Lemma listImagesS_cons quiet noTrunc showDigests image rest h k :
  let h1 := fst (tagsAndDigestsS growth h image) in
  let r := listImage quiet noTrunc showDigests (view (cell h) image) k in
  listImagesS quiet noTrunc showDigests (image :: rest) h k
  = match outcome r with
    | inl _ => (h1, r)
    | inr _ =>
        (fst (listImagesS quiet noTrunc showDigests rest h1 (clockReads r)),
         (events r
            ++ events (snd (listImagesS quiet noTrunc showDigests rest h1 (clockReads r))),
          clockReads (snd (listImagesS quiet noTrunc showDigests rest h1 (clockReads r))),
          outcome (snd (listImagesS quiet noTrunc showDigests rest h1 (clockReads r)))))
    end.
Proof.
  intros h1 r. subst h1 r. rewrite listImage_eq.
  rewrite <- (tagsAndDigestsS_load h image). simpl.
  destruct (tagsAndDigestsS growth h image) as [h1 combined]. simpl.
  destruct (outcome _); [reflexivity|].
  destruct (listImagesS _ _ _ _ _ _) as [h2 r2]. reflexivity.
Qed.


Lemma view_frame (h h' : heap) images image :
  separated h images -> In image images ->
  (forall a, a < next h ->
     (forall image', In image' images -> ~ spare (sRepoTags image') a) ->
     cell h' a = cell h a) ->
  view (cell h') image = view (cell h) image.
Proof.
  intros Sep I F. destruct (Sep image I) as (_ & Bt & Bd & NS).
  unfold view. f_equal; apply load_ext; intros a Sh; apply F.
  - unfold shown in Sh. lia.
  - intros image' I' Sp. now destruct (NS image' a I' Sp).
  - unfold shown in Sh. lia.
  - intros image' I' Sp. now destruct (NS image' a I' Sp).
Qed.


(** The loop on the store does what the loop on lists does on the
    records read from the store at the start. *)
Lemma listImagesS_lists quiet noTrunc showDigests all h0 images : forall h k,
  separated h0 all -> incl images all ->
  next h0 <= next h ->
  (forall a, a < next h0 ->
     (forall image, In image all -> ~ spare (sRepoTags image) a) ->
     cell h a = cell h0 a) ->
  snd (listImagesS quiet noTrunc showDigests images h k)
  = forM_ (map (view (cell h0)) images) (listImage quiet noTrunc showDigests) k.
Proof.
  induction images as [|image rest IH]; intros h k Sep Inc N F.
  - reflexivity.
  - assert (I : In image all) by (apply Inc; now left).
    assert (V := view_frame h0 h all image Sep I F).
    rewrite listImagesS_cons, V. simpl map.
    destruct (tagsAndDigestsS_frame h image) as [N1 F1].
    destruct (outcome_unit error
                (listImage quiet noTrunc showDigests (view (cell h0) image) k))
      as [[err E]|E].
    + rewrite (forM_cons_err _ _ _ _ _ _ _ E), E. simpl.
      rewrite <- E. apply triple_eta.
    + rewrite (forM_cons_ok _ _ _ _ _ _ E), E. simpl.
      rewrite IH; auto.
      * intros x Hx. apply Inc. now right.
      * lia.
      * intros a A S. rewrite F1; [now apply F|lia|now apply S].
Qed.

Lemma listImagesS_refines quiet noTrunc showDigests images h k :
  separated h images ->
  snd (listImagesS quiet noTrunc showDigests images h k)
  = forM_ (map (view (cell h)) images) (listImage quiet noTrunc showDigests) k.
Proof.
  intros Sep. apply (listImagesS_lists _ _ _ images h); auto.
  apply incl_refl.
Qed.


End StoreFacts.

(** * Concrete runs *)

Section Runs.
Import tabwriter.

(** The scenario of the design: one tagged record, plain listing. *)
Example foo_listing :
  Sample.CmdImages false false false (inr [Sample.foo]) 0
  = ([Fprint ("REPOSITORY" ++ TAB ++ "TAG" ++ TAB ++ "IMAGE ID" ++ TAB
              ++ "CREATED" ++ TAB ++ "SIZE" ++ NL);
      CallParse "library/foo:latest";
      Fprint ("library/foo" ++ TAB ++ "latest" ++ TAB ++ "0123456789ab" ++ TAB
              ++ "2 hours ago" ++ TAB ++ "1 MB" ++ NL);
      FlushW], 1, inr tt).
Proof. reflexivity. Qed.

(** The table reaches the stream with the final flush. *)
Example foo_listing_visible :
  out (run Sample.format (NewWriter "")
         (events (Sample.CmdImages false false false (inr [Sample.foo]) 0)))
  = ("REPOSITORY" ++ TAB ++ "TAG" ++ TAB ++ "IMAGE ID" ++ TAB
     ++ "CREATED" ++ TAB ++ "SIZE" ++ NL
     ++ "library/foo" ++ TAB ++ "latest" ++ TAB ++ "0123456789ab" ++ TAB
     ++ "2 hours ago" ++ TAB ++ "1 MB" ++ NL)%string.
Proof. reflexivity. Qed.

(** The dangling record gives one row, also with the digest column. *)
Example dangling_listing :
  writes (events (Sample.CmdImages false false true (inr [Sample.danglingImage]) 0))
  = [("REPOSITORY" ++ TAB ++ "TAG" ++ TAB ++ "DIGEST" ++ TAB ++ "IMAGE ID" ++ TAB
      ++ "CREATED" ++ TAB ++ "SIZE" ++ NL)%string;
     ("<none>" ++ TAB ++ "<none>" ++ TAB ++ "<none>" ++ TAB ++ "aaaabbbbcccc" ++ TAB
      ++ "2 hours ago" ++ TAB ++ "1 MB" ++ NL)%string].
Proof. reflexivity. Qed.

(** Quiet listing: one id per reference string, tags and digest alike,
    on the stream without a flush. *)
Example mixed_quiet_listing :
  Sample.CmdImages true false true (inr [Sample.mixed]) 0
  = ([CallParse "library/foo:latest"; Fprint ("0123456789ab" ++ NL);
      Fprint ("0123456789ab" ++ NL);
      CallParse "library/foo@sha256:0a1b"; Fprint ("0123456789ab" ++ NL)],
     0, inr tt)
  /\ out (run Sample.format (NewWriter "")
            (events (Sample.CmdImages true false true (inr [Sample.mixed]) 0)))
     = ("0123456789ab" ++ NL ++ "0123456789ab" ++ NL ++ "0123456789ab" ++ NL)%string.
Proof. split; reflexivity. Qed.

(** On the store, [append] puts the digest into the spare capacity of
    the tag slice (cell 1) and nowhere else. *)
Example fooS_append :
  let h := fst (Sample.listImagesS false false false [Sample.fooS] Sample.heap0 0) in
  map (cell h) (seq 0 8)
  = ["library/foo:latest"; "library/foo@sha256:0a1b"; ""; "";
     "library/foo@sha256:0a1b"; ""; ""; ""]%string
  /\ next h = 8.
Proof. split; reflexivity. Qed.

(** C3, the claim as written, fails: with the quiet flag, the id row
    printed before the malformed tag is already on the stream when the
    call returns the parser's error. *)
Lemma parse_failure_quiet_row_visible :
  In ":latest"%string (RepoTags Sample.broken ++ RepoDigests Sample.broken)
  /\ HasPrefix ":latest" "<none>" = false
  /\ Sample.ParseNamed ":latest" = inl "invalid reference format: :latest"%string
  /\ outcome (Sample.CmdImages true false false (inr [Sample.broken]) 0)
     = inl "invalid reference format: :latest"%string
  /\ out (run Sample.format (NewWriter "")
            (events (Sample.CmdImages true false false (inr [Sample.broken]) 0)))
     = ("0123456789ab" ++ NL)%string
  /\ out (run Sample.format (NewWriter "")
            (events (Sample.CmdImages true false false (inr [Sample.broken]) 0)))
     <> ""%string.
Proof.
  repeat split; try reflexivity.
  - simpl. auto.
  - discriminate.
Qed.


End Runs.

(** * The theorems at concrete inputs *)

Section Witnesses.
Import tabwriter.

Lemma splitRef_plain s :
  plain s = true ->
  plain (fst (Sample.splitRef s)) = true
  /\ match snd (Sample.splitRef s) with
     | Some (_, r) => plain r = true
     | None => True
     end.
Proof.
  induction s as [|c s IH]; simpl; intros P.
  - auto.
  - apply andb_prop in P. destruct P as [C P].
    destruct (Ascii.eqb c ":"); [simpl; auto|].
    destruct (Ascii.eqb c "@"); [simpl; auto|].
    destruct (IH P) as [Pn Pr].
    destruct (Sample.splitRef s) as [n r]. simpl in *.
    rewrite C, Pn. auto.
Qed.

Lemma sample_plainNamed s ref :
  Sample.ParseNamed s = inr ref -> plainNamed ref.
Proof.
  unfold Sample.ParseNamed. destruct (plain s) eqn:P; simpl; [|discriminate].
  destruct (splitRef_plain s P) as [Pn Pr].
  destruct (Sample.splitRef s) as [n [[[|] r]|]]; simpl in *;
    destruct n; try discriminate; intros E; inversion E; subst; clear E;
    unfold plainNamed; simpl; repeat split; auto; intros ? E; inversion E;
    subst; assumption.
Qed.

Lemma sample_plainCells images :
  plainIDs Sample.TruncateID false images ->
  plainCells Sample.ParseNamed Sample.TruncateID Sample.HumanDurationSince
    Sample.HumanSize false images.
Proof.
  intros H. split; [exact sample_plainNamed|].
  split; [reflexivity|]. split; [reflexivity|exact H].
Qed.

Lemma dangling_record_one_row_witness :
  RepoTags Sample.danglingImage = ["<none>:<none>"%string]
  /\ RepoDigests Sample.danglingImage = ["<none>@<none>"%string]
  /\ tagsAndDigests Sample.danglingImage = ["<none>:<none>"%string]
  /\ forall k, outcome (Sample.reconcile Sample.danglingImage k)
               = inr [("<none>", "<none>", "<none>")%string].
Proof.
  split; [reflexivity|]. split; [reflexivity|].
  destruct (dangling_record_one_row string Sample.ParseNamed Sample.TruncateID
              Sample.HumanDurationSince Sample.HumanSize Sample.danglingImage
              eq_refl eq_refl) as (E & R & _).
  split; [exact E|exact R].
Defined.

Lemma tags_then_digests_witness :
  ~ (RepoTags Sample.mixed = ["<none>:<none>"%string]
     /\ RepoDigests Sample.mixed = ["<none>@<none>"%string])
  /\ Forall (goodRef Sample.ParseNamed)
       (RepoTags Sample.mixed ++ RepoDigests Sample.mixed)
  /\ exists ts ds,
       length (ts ++ ds) = 3
       /\ forall k, outcome (Sample.reconcile Sample.mixed k) = inr (ts ++ ds).
Proof.
  assert (H1 : ~ (RepoTags Sample.mixed = ["<none>:<none>"%string]
                  /\ RepoDigests Sample.mixed = ["<none>@<none>"%string]))
    by (intros [H _]; discriminate).
  assert (H2 : Forall (goodRef Sample.ParseNamed)
                 (RepoTags Sample.mixed ++ RepoDigests Sample.mixed)).
  { simpl.
    constructor; [right; eexists; reflexivity|].
    constructor; [left; reflexivity|].
    constructor; [right; eexists; reflexivity|]. constructor. }
  split; [exact H1|]. split; [exact H2|].
  destruct (tags_then_digests string Sample.ParseNamed Sample.TruncateID
              Sample.HumanDurationSince Sample.HumanSize Sample.mixed H1 H2)
    as (ts & ds & _ & _ & L & R & _).
  exists ts, ds. split; [exact L|exact R].
Defined.

Lemma parse_failure_aborts_witness :
  (exists image s err, In image [Sample.broken]
     /\ In s (RepoTags image ++ RepoDigests image)
     /\ badRef Sample.ParseNamed s err)
  /\ plainCells Sample.ParseNamed Sample.TruncateID Sample.HumanDurationSince
       Sample.HumanSize false [Sample.broken]
  /\ ~ In FlushW (events (Sample.CmdImages false false true (inr [Sample.broken]) 0))
  /\ out (run Sample.format (NewWriter "previous output")
            (events (Sample.CmdImages false false true (inr [Sample.broken]) 0)))
     = "previous output"%string.
Proof.
  assert (H : exists image s err, In image [Sample.broken]
                /\ In s (RepoTags image ++ RepoDigests image)
                /\ badRef Sample.ParseNamed s err).
  { exists Sample.broken, ":latest"%string,
      "invalid reference format: :latest"%string.
    split; [now left|]. split; [simpl; auto|]. split; reflexivity. }
  assert (PC : plainCells Sample.ParseNamed Sample.TruncateID
                 Sample.HumanDurationSince Sample.HumanSize false [Sample.broken]).
  { apply sample_plainCells. constructor; [reflexivity|constructor]. }
  split; [exact H|]. split; [exact PC|].
  destruct (parse_failure_aborts string Sample.ParseNamed Sample.TruncateID
              Sample.HumanDurationSince Sample.HumanSize
              false false true [Sample.broken] 0 H) as (_ & NF & V & _).
  split; [exact NF|].
  exact (V eq_refl PC Sample.format "previous output"%string).
Defined.

Lemma tag_or_digest_none_witness :
  outcome (Sample.refFields "library/foo:latest" 0)
  = inr ("library/foo", "latest", "<none>")%string
  /\ ("latest" = "<none>" \/ "<none>" = "<none>")%string.
Proof.
  split; [reflexivity|].
  exact (proj1 (tag_or_digest_none string Sample.ParseNamed
                  "library/foo:latest" 0 "library/foo" "latest" "<none>" eq_refl)).
Defined.


Lemma none_prefix_defaults_witness :
  HasPrefix "<none>@<none>" "<none>" = true
  /\ outcome (Sample.refFields "<none>@<none>" 0)
     = inr ("<none>", "<none>", "<none>")%string.
Proof.
  split; [reflexivity|].
  exact (proj1 (none_prefix_defaults string Sample.ParseNamed
                  Sample.HumanDurationSince Sample.HumanSize
                  "<none>@<none>" 0 eq_refl)).
Defined.

Lemma bare_name_fields_witness :
  HasPrefix "busybox" "<none>" = false
  /\ Sample.ParseNamed "busybox" = inr (mkNamed "busybox" None None)
  /\ outcome (Sample.refFields "busybox" 0)
     = inr ("busybox", "<none>", "<none>")%string.
Proof.
  split; [reflexivity|]. split; [reflexivity|].
  exact (bare_name_fields string Sample.ParseNamed "busybox" 0
           (mkNamed "busybox" None None) eq_refl eq_refl eq_refl eq_refl).
Defined.


End Witnesses.

(** * The command line, the request and the listing as a whole *)

(** ** Filters and the request *)

Section CommandFacts.
Variable error : Type.
Variable ParseNamed : string -> error + Named.
Variable TruncateID : string -> string.
Variable HumanDurationSince : nat -> Z -> string.
Variable HumanSize : Z -> string.
Variable Args : Type.
Variable NewArgs : Args.
Variable ParseFlag : string -> Args -> error + Args.

Local Abbreviation consolidate := (consolidate ParseFlag).
Local Abbreviation command :=
  (CmdImagesCommand ParseNamed TruncateID HumanDurationSince HumanSize
     NewArgs ParseFlag).
Local Abbreviation CmdImages :=
  (CmdImages ParseNamed TruncateID HumanDurationSince HumanSize).

(** The filter loop over a list in two parts. *)
Lemma consolidate_app fs1 fs2 : forall a,
  consolidate (fs1 ++ fs2) a
  = match consolidate fs1 a with
    | inl err => inl err
    | inr b => consolidate fs2 b
    end.
Proof.
  induction fs1 as [|f fs1 IH]; intros a; simpl; [reflexivity|].
  destruct (ParseFlag f a) as [err|b]; [reflexivity|apply IH].
Qed.

Lemma matchNameOf_one args :
  length args = 1 -> matchNameOf args = nth 0 args ""%string.
Proof. destruct args as [|a [|b args]]; simpl; intros E; try discriminate; reflexivity. Qed.

Lemma matchNameOf_other args :
  length args <> 1 -> matchNameOf args = ""%string.
Proof. destruct args as [|a [|b args]]; simpl; intros E; try reflexivity. now elim E. Qed.

(** X1 (lines 37-44).  When a filter value is rejected by
    [filters.ParseFlag], applied to the set built from the values
    before it, the command returns that error at once: nothing is
    written, no reference is parsed, the clock is not read, and the
    result is the same whatever the daemon would have answered and
    whatever filter values follow on the command line. *)
Theorem filter_error_before_request :
  forall ImageList flags fs1 f fs2 a err k,
    fFilter flags = fs1 ++ f :: fs2 ->
    consolidate fs1 NewArgs = inr a ->
    ParseFlag f a = inl err ->
    command ImageList flags k = ([], k, inl err).
Proof.
  intros ImageList flags fs1 f fs2 a err k F C P.
  unfold CmdImagesCommand. rewrite F, consolidate_app, C. simpl.
  rewrite P. reflexivity.
Qed.

(** X2 (lines 37-57).  When every filter value is accepted, the daemon
    is asked once, with the set obtained by applying
    [filters.ParseFlag] to the values from left to right starting from
    the empty set, with the [--all] flag as given, and with the
    repository name taken from the command line when there is exactly
    one argument and empty otherwise; the command then is the listing
    of the daemon's answer under the three display flags. *)
Theorem request_options :
  forall ImageList flags a k,
    consolidate (fFilter flags) NewArgs = inr a ->
    (exists options,
       Filters options = a
       /\ All options = fAll flags
       /\ (length (fArgs flags) = 1 ->
           MatchName options = nth 0 (fArgs flags) ""%string)
       /\ (length (fArgs flags) <> 1 -> MatchName options = ""%string)
       /\ command ImageList flags k
          = CmdImages (fQuiet flags) (fNoTrunc flags) (fShowDigests flags)
              (ImageList options) k)
    /\ (forall fs1 fs2 a0,
          consolidate (fs1 ++ fs2) a0
          = match consolidate fs1 a0 with
            | inl err => inl err
            | inr b => consolidate fs2 b
            end)
    /\ (forall f a0, consolidate [f] a0 = ParseFlag f a0).
Proof.
  intros ImageList flags a k C. split; [|split].
  - exists (mkOptions (matchNameOf (fArgs flags)) (fAll flags) a).
    simpl. repeat split.
    + apply matchNameOf_one.
    + apply matchNameOf_other.
    + unfold CmdImagesCommand. rewrite C. reflexivity.
  - intros fs1 fs2 a0. apply consolidate_app.
  - intros f a0. simpl. destruct (ParseFlag f a0); reflexivity.
Qed.

(** X3 (lines 57-60).  When the daemon answers with an error, the
    command returns it unchanged; the tab writer is never written to
    or flushed, so the output stream is as it was, and no reference is
    parsed. *)
Theorem daemon_error_returned :
  forall ImageList flags a err k,
    consolidate (fFilter flags) NewArgs = inr a ->
    ImageList (mkOptions (matchNameOf (fArgs flags)) (fAll flags) a) = inl err ->
    command ImageList flags k = ([], k, inl err)
    /\ forall format output,
         tabwriter.run format (tabwriter.NewWriter output)
           (events (command ImageList flags k))
         = tabwriter.NewWriter output.
Proof.
  intros ImageList flags a err k C L.
  assert (E : command ImageList flags k = ([], k, inl err)).
  { unfold CmdImagesCommand. rewrite C. simpl. rewrite L. reflexivity. }
  split; [exact E|]. intros format output. rewrite E. reflexivity.
Qed.

End CommandFacts.

(** ** A loop over a list in two parts *)

Section LoopParts.
Variable error : Type.
Variable A : Type.
Local Abbreviation M := (M error).

Lemma forM_app (body : A -> M unit) xs ys : forall k,
  forM_ (xs ++ ys) body k = bind (forM_ xs body) (fun _ => forM_ ys body) k.
Proof.
  induction xs as [|x xs IH]; intros k; simpl.
  - unfold bind, ret. destruct (forM_ ys body k) as [[e k'] r]. reflexivity.
  - unfold bind. destruct (body x k) as [[e1 k1] [err|[]]]; [reflexivity|].
    rewrite IH. unfold bind.
    destruct (forM_ xs body k1) as [[e2 k2] [err|u]]; [reflexivity|].
    destruct (forM_ ys body k2) as [[e3 k3] r]. now rewrite app_assoc.
Qed.

Lemma forM_app_ok (body : A -> M unit) xs ys k :
  outcome (forM_ xs body k) = inr tt ->
  forM_ (xs ++ ys) body k
  = (events (forM_ xs body k)
       ++ events (forM_ ys body (clockReads (forM_ xs body k))),
     clockReads (forM_ ys body (clockReads (forM_ xs body k))),
     outcome (forM_ ys body (clockReads (forM_ xs body k)))).
Proof.
  intros H. rewrite forM_app.
  apply (@bind_ok _ _ _ (forM_ xs body) (fun _ => forM_ ys body) k _ _ tt).
  rewrite <- H. apply triple_eta.
Qed.

Lemma forM_app_err (body : A -> M unit) xs ys k err :
  outcome (forM_ xs body k) = inl err ->
  forM_ (xs ++ ys) body k = forM_ xs body k.
Proof.
  rewrite forM_app. unfold bind.
  destruct (forM_ xs body k) as [[e k1] [err'|u]]; [reflexivity|discriminate].
Qed.

(** A body that does nothing can be left out of the loop. *)
Lemma forM_skip (body : A -> M unit) xs x ys :
  (forall k, body x k = ([], k, inr tt)) ->
  forall k, forM_ (xs ++ x :: ys) body k = forM_ (xs ++ ys) body k.
Proof.
  intros H k. rewrite !forM_app. unfold bind at 1 2.
  destruct (forM_ xs body k) as [[e1 k1] [err|u]]; [reflexivity|].
  simpl. unfold bind. rewrite H.
  destruct (forM_ ys body k1) as [[e2 k2] r]. reflexivity.
Qed.

(** A loop whose body leaves the clock alone leaves it alone. *)
Lemma forM_clock_same (body : A -> M unit) xs :
  (forall x k, clockReads (body x k) = k) ->
  forall k, clockReads (forM_ xs body k) = k.
Proof.
  intros H. induction xs as [|x xs IH]; intros k; [reflexivity|].
  destruct (outcome_unit error (body x k)) as [[err E]|E].
  - rewrite (forM_cons_err _ _ _ _ _ _ _ E). apply H.
  - rewrite (forM_cons_ok _ _ _ _ _ _ E). unfold clockReads at 1. simpl.
    rewrite IH. apply H.
Qed.

End LoopParts.

(** ** Parser calls, rows and clock readings of a listing *)

Section Whole.
Variable error : Type.
Variable ParseNamed : string -> error + Named.
Variable TruncateID : string -> string.
Variable HumanDurationSince : nat -> Z -> string.
Variable HumanSize : Z -> string.

Local Abbreviation refFields := (refFields ParseNamed).
Local Abbreviation listRef := (listRef ParseNamed HumanDurationSince HumanSize).
Local Abbreviation listImage := (listImage ParseNamed TruncateID HumanDurationSince HumanSize).
Local Abbreviation CmdImages := (CmdImages ParseNamed TruncateID HumanDurationSince HumanSize).
Local Abbreviation rowLine := (rowLine HumanDurationSince HumanSize).
Local Abbreviation displayID := (displayID TruncateID).
Local Abbreviation goodRef := (goodRef ParseNamed).
Local Abbreviation badRef := (badRef ParseNamed).

(** The two ways the body of the inner loop can go. *)
Lemma listRef_cases quiet showDigests id image s k :
  (goodRef s /\ exists f,
     listRef quiet showDigests id image s k
     = ((if HasPrefix s "<none>" then [] else [CallParse s])
          ++ [Fprint (rowLine quiet showDigests id image k f)],
        if quiet then k else S k, inr tt))
  \/ (exists err, badRef s err
        /\ listRef quiet showDigests id image s k = ([CallParse s], k, inl err)).
Proof.
  destruct (HasPrefix s "<none>") eqn:H.
  - left. split; [left; exact H|]. exists (none, none, none).
    rewrite listRef_ok with (f := (none, none, none));
      rewrite (refFields_none _ ParseNamed s k H); reflexivity.
  - destruct (ParseNamed s) as [err|ref] eqn:P.
    + right. exists err. split; [split; assumption|].
      rewrite listRef_err with (err := err);
        rewrite (refFields_error _ ParseNamed s k err H P); reflexivity.
    + left. split; [right; exists ref; exact P|]. exists (namedFields ref).
      rewrite listRef_ok with (f := namedFields ref);
        rewrite (refFields_parsed _ ParseNamed s k ref H P); reflexivity.
Qed.

Lemma toParse_app ss1 ss2 : toParse (ss1 ++ ss2) = toParse ss1 ++ toParse ss2.
Proof. unfold toParse. apply filter_app. Qed.

Lemma toParse_cons s ss :
  toParse (s :: ss) = (if HasPrefix s "<none>" then [] else [s]) ++ toParse ss.
Proof. unfold toParse. simpl. destruct (HasPrefix s "<none>"); reflexivity. Qed.

(** The inner loop, when it gets through. *)
Lemma inner_ok quiet showDigests id image ss : forall k,
  outcome (forM_ ss (listRef quiet showDigests id image) k) = inr tt ->
  parsed (events (forM_ ss (listRef quiet showDigests id image) k)) = toParse ss
  /\ length (writes (events (forM_ ss (listRef quiet showDigests id image) k)))
     = length ss
  /\ clockReads (forM_ ss (listRef quiet showDigests id image) k)
     = (if quiet then k else k + length ss).
Proof.
  induction ss as [|s ss IH]; intros k Ok.
  - simpl. repeat split; auto. destruct quiet; [reflexivity|apply plus_n_O].
  - destruct (listRef_cases quiet showDigests id image s k)
      as [(_ & f & E)|(err & _ & E)].
    + assert (O : outcome (listRef quiet showDigests id image s k) = inr tt)
        by (rewrite E; reflexivity).
      rewrite (forM_cons_ok _ _ _ _ _ _ O) in Ok |- *. rewrite E in Ok |- *.
      cbn [events clockReads outcome fst snd] in Ok |- *.
      destruct (IH _ Ok) as (Hp & Hw & Hc).
      rewrite !parsed_app, !writes_app, !length_app, Hp, Hw, Hc, toParse_cons.
      repeat split.
      * destruct (HasPrefix s "<none>"); reflexivity.
      * destruct (HasPrefix s "<none>"); reflexivity.
      * destruct quiet; simpl; lia.
    + assert (O : outcome (listRef quiet showDigests id image s k) = inl err)
        by (rewrite E; reflexivity).
      rewrite (forM_cons_err _ _ _ _ _ _ _ O) in Ok. discriminate.
Qed.

(** The outer loop, when it gets through. *)
Lemma loop_ok quiet noTrunc showDigests images : forall k,
  outcome (forM_ images (listImage quiet noTrunc showDigests) k) = inr tt ->
  parsed (events (forM_ images (listImage quiet noTrunc showDigests) k))
  = toParse (flat_map tagsAndDigests images)
  /\ length (writes (events (forM_ images (listImage quiet noTrunc showDigests) k)))
     = length (flat_map tagsAndDigests images)
  /\ clockReads (forM_ images (listImage quiet noTrunc showDigests) k)
     = (if quiet then k else k + length (flat_map tagsAndDigests images)).
Proof.
  induction images as [|image images IH]; intros k Ok.
  - simpl. repeat split; auto. destruct quiet; [reflexivity|apply plus_n_O].
  - destruct (outcome_unit error (listImage quiet noTrunc showDigests image k))
      as [[err E]|E].
    + rewrite (forM_cons_err _ _ _ _ _ _ _ E) in Ok. discriminate.
    + rewrite (forM_cons_ok _ _ _ _ _ _ E) in Ok |- *.
      cbn [events clockReads outcome fst snd] in Ok |- *.
      destruct (IH _ Ok) as (Hp & Hw & Hc).
      rewrite listImage_eq in E, Hp, Hw, Hc |- *.
      destruct (inner_ok _ _ _ _ _ _ E) as (Ip & Iw & Ic).
      rewrite !parsed_app, !writes_app, !length_app, Hp, Hw, Hc, Ip, Iw, Ic.
      simpl flat_map. rewrite toParse_app, length_app.
      repeat split. destruct quiet; lia.
Qed.

End Whole.

(** ** Success and the first failure *)

Section Outcome.
Variable error : Type.
Variable ParseNamed : string -> error + Named.
Variable TruncateID : string -> string.
Variable HumanDurationSince : nat -> Z -> string.
Variable HumanSize : Z -> string.

Local Abbreviation listRef := (listRef ParseNamed HumanDurationSince HumanSize).
Local Abbreviation listImage := (listImage ParseNamed TruncateID HumanDurationSince HumanSize).
Local Abbreviation CmdImages := (CmdImages ParseNamed TruncateID HumanDurationSince HumanSize).
Local Abbreviation rowLine := (rowLine HumanDurationSince HumanSize).
Local Abbreviation displayID := (displayID TruncateID).
Local Abbreviation goodRef := (goodRef ParseNamed).
Local Abbreviation badRef := (badRef ParseNamed).

Lemma good_not_bad s err : goodRef s -> badRef s err -> False.
Proof.
  intros [G|[ref G]] [B P]; [rewrite G in B|rewrite G in P]; discriminate.
Qed.

(** A listing that succeeds: header, rows, flush. *)
Lemma CmdImages_ok quiet noTrunc showDigests images k :
  outcome (CmdImages quiet noTrunc showDigests (inr images) k) = inr tt ->
  outcome (forM_ images (listImage quiet noTrunc showDigests) k) = inr tt
  /\ CmdImages quiet noTrunc showDigests (inr images) k
     = ((if quiet then [] else [Fprint (header showDigests)])
          ++ events (forM_ images (listImage quiet noTrunc showDigests) k)
          ++ (if quiet then [] else [FlushW]),
        clockReads (forM_ images (listImage quiet noTrunc showDigests) k), inr tt).
Proof.
  rewrite CmdImages_run. unfold outcome at 1. simpl snd. intros Ok.
  split; [exact Ok|]. rewrite Ok. reflexivity.
Qed.

Lemma inner_good quiet showDigests id image ss :
  Forall goodRef ss ->
  forall k, outcome (forM_ ss (listRef quiet showDigests id image) k) = inr tt.
Proof.
  induction 1 as [|s ss G _ IH]; intros k; [reflexivity|].
  destruct (listRef_cases _ ParseNamed HumanDurationSince HumanSize
              quiet showDigests id image s k) as [(_ & f & E)|(err & B & _)].
  - assert (O : outcome (listRef quiet showDigests id image s k) = inr tt)
      by (rewrite E; reflexivity).
    rewrite (forM_cons_ok _ _ _ _ _ _ O). apply IH.
  - elim (good_not_bad s err G B).
Qed.

Lemma loop_good quiet noTrunc showDigests images :
  Forall goodRef (flat_map tagsAndDigests images) ->
  forall k, outcome (forM_ images (listImage quiet noTrunc showDigests) k) = inr tt.
Proof.
  induction images as [|image images IH]; intros G k; [reflexivity|].
  simpl in G. apply Forall_app in G. destruct G as [G1 G2].
  assert (O : outcome (listImage quiet noTrunc showDigests image k) = inr tt)
    by (rewrite listImage_eq; now apply inner_good).
  rewrite (forM_cons_ok _ _ _ _ _ _ O). now apply IH.
Qed.

(** The inner loop stops at the first string the parser rejects. *)
Lemma inner_stop quiet showDigests id image ss1 s ss2 err k :
  Forall goodRef ss1 -> badRef s err ->
  forM_ (ss1 ++ s :: ss2) (listRef quiet showDigests id image) k
  = (events (forM_ ss1 (listRef quiet showDigests id image) k) ++ [CallParse s],
     clockReads (forM_ ss1 (listRef quiet showDigests id image) k), inl err).
Proof.
  intros G B.
  rewrite (forM_app_ok _ _ _ _ _ _ (inner_good quiet showDigests id image ss1 G k)).
  set (k1 := clockReads (forM_ ss1 (listRef quiet showDigests id image) k)).
  destruct (listRef_cases _ ParseNamed HumanDurationSince HumanSize
              quiet showDigests id image s k1) as [(G' & _)|(err' & B' & E)].
  - elim (good_not_bad s err G' B).
  - assert (err' = err) by (destruct B as [_ P], B' as [_ P']; congruence).
    subst err'.
    assert (O : outcome (listRef quiet showDigests id image s k1) = inl err)
      by (rewrite E; reflexivity).
    rewrite (forM_cons_err _ _ _ _ _ _ _ O), E. reflexivity.
Qed.

(** The outer loop stops inside the record of that string. *)
Lemma loop_stop quiet noTrunc showDigests pre image post ss1 s ss2 err k :
  Forall goodRef (flat_map tagsAndDigests pre) ->
  tagsAndDigests image = ss1 ++ s :: ss2 ->
  Forall goodRef ss1 -> badRef s err ->
  let r := forM_ pre (listImage quiet noTrunc showDigests) k in
  let r1 := forM_ ss1 (listRef quiet showDigests (displayID noTrunc image) image)
              (clockReads r) in
  forM_ (pre ++ image :: post) (listImage quiet noTrunc showDigests) k
  = (events r ++ events r1 ++ [CallParse s], clockReads r1, inl err).
Proof.
  intros Gp T G B r r1.
  rewrite (forM_app_ok _ _ _ _ _ _ (loop_good quiet noTrunc showDigests pre Gp k)).
  fold r.
  assert (E : listImage quiet noTrunc showDigests image (clockReads r)
              = (events r1 ++ [CallParse s], clockReads r1, inl err)).
  { rewrite listImage_eq, T. now apply inner_stop. }
  assert (O : outcome (listImage quiet noTrunc showDigests image (clockReads r))
              = inl err) by (rewrite E; reflexivity).
  rewrite (forM_cons_err _ _ _ _ _ _ _ O), E. reflexivity.
Qed.

End Outcome.

(** ** The listing as a whole *)

Section ListingFacts.
Variable error : Type.
Variable ParseNamed : string -> error + Named.
Variable TruncateID : string -> string.
Variable HumanDurationSince : nat -> Z -> string.
Variable HumanSize : Z -> string.

Local Abbreviation listRef := (listRef ParseNamed HumanDurationSince HumanSize).
Local Abbreviation listImage := (listImage ParseNamed TruncateID HumanDurationSince HumanSize).
Local Abbreviation CmdImages := (CmdImages ParseNamed TruncateID HumanDurationSince HumanSize).
Local Abbreviation rowLine := (rowLine HumanDurationSince HumanSize).
Local Abbreviation displayID := (displayID TruncateID).
Local Abbreviation goodRef := (goodRef ParseNamed).
Local Abbreviation badRef := (badRef ParseNamed).

(** X4 (lines 62-69, 120-123).  When the daemon answers with no
    record, the listing succeeds without reading the clock or calling
    the parser; without the quiet flag it writes the header and
    flushes, so the stream receives the aligned header and nothing
    else, and with the quiet flag it writes nothing at all. *)
Theorem empty_listing :
  forall quiet noTrunc showDigests k format output,
    CmdImages quiet noTrunc showDigests (inr []) k
    = ((if quiet then [] else [Fprint (header showDigests); FlushW]), k, inr tt)
    /\ tabwriter.run format (tabwriter.NewWriter output)
         (events (CmdImages quiet noTrunc showDigests (inr []) k))
       = tabwriter.NewWriter
           (if quiet then output else output ++ format (header showDigests))%string.
Proof.
  intros quiet noTrunc showDigests k format output.
  destruct quiet; [split; reflexivity|].
  split; [reflexivity|]. destruct showDigests; reflexivity.
Qed.

(** X5 (lines 77-87).  A record with no tag and no digest string gets
    no row: the inner loop has nothing to range over, so the listing
    is, effect for effect, that of the list without the record. *)
Theorem unreferenced_record_is_skipped :
  forall quiet noTrunc showDigests pre image post k,
    RepoTags image = [] ->
    RepoDigests image = [] ->
    listImage quiet noTrunc showDigests image k = ([], k, inr tt)
    /\ CmdImages quiet noTrunc showDigests (inr (pre ++ image :: post)) k
       = CmdImages quiet noTrunc showDigests (inr (pre ++ post)) k.
Proof.
  intros quiet noTrunc showDigests pre image post k Ht Hd.
  assert (E : forall k', listImage quiet noTrunc showDigests image k' = ([], k', inr tt)).
  { intros k'. rewrite listImage_eq. unfold tagsAndDigests. rewrite Ht, Hd.
    reflexivity. }
  split; [apply E|].
  rewrite !CmdImages_run.
  rewrite (forM_skip _ _ (listImage quiet noTrunc showDigests) pre image post E k).
  reflexivity.
Qed.

(** X8 (lines 87-97).  In a listing that succeeds the reference parser
    is called exactly once for every tag or digest string that does not
    start with [<none>], in the order of the records and, within a
    record, tags before digests; it is never called for a string with
    that prefix.  This holds under every combination of the display
    flags. *)
Theorem parser_called_once_per_reference :
  forall quiet noTrunc showDigests images k,
    outcome (CmdImages quiet noTrunc showDigests (inr images) k) = inr tt ->
    parsed (events (CmdImages quiet noTrunc showDigests (inr images) k))
    = toParse (flat_map tagsAndDigests images).
Proof.
  intros quiet noTrunc showDigests images k Ok.
  destruct (CmdImages_ok _ _ _ _ _ _ _ _ _ k Ok) as [L E]. rewrite E.
  cbn [events fst]. rewrite !parsed_app.
  destruct (loop_ok _ ParseNamed TruncateID HumanDurationSince HumanSize
              quiet noTrunc showDigests images k L) as (P & _).
  rewrite P. destruct quiet; simpl; now rewrite app_nil_r.
Qed.

(** X12 (lines 87-117).  A listing that succeeds writes one row for
    every string of the combined lists of the records, after the
    header if the quiet flag is off, and reads the clock once for
    every row, or not at all with the quiet flag. *)
Theorem one_row_one_clock_reading_per_reference :
  forall quiet noTrunc showDigests images k,
    outcome (CmdImages quiet noTrunc showDigests (inr images) k) = inr tt ->
    length (writes (events (CmdImages quiet noTrunc showDigests (inr images) k)))
    = (if quiet then 0 else 1) + length (flat_map tagsAndDigests images)
    /\ clockReads (CmdImages quiet noTrunc showDigests (inr images) k)
       = (if quiet then k else k + length (flat_map tagsAndDigests images)).
Proof.
  intros quiet noTrunc showDigests images k Ok.
  destruct (CmdImages_ok _ _ _ _ _ _ _ _ _ k Ok) as [L E]. rewrite E.
  cbn [events clockReads fst snd]. rewrite !writes_app, !length_app.
  destruct (loop_ok _ ParseNamed TruncateID HumanDurationSince HumanSize
              quiet noTrunc showDigests images k L) as (_ & W & C).
  rewrite W, C. split; [|reflexivity]. destruct quiet; simpl; lia.
Qed.

(** X10 (lines 93-97).  The listing stops at the first string, in the
    order of the loops, that the parser rejects: it returns that
    string's error, the parser has been called for the strings before
    it and for it and for none after it, one row has been written for
    every string before it and none for it, the tab writer is not
    flushed, and the records after the failing one are never looked
    at. *)
Theorem first_failure_stops_the_listing :
  forall quiet noTrunc showDigests pre image post ss1 s ss2 err k,
    Forall goodRef (flat_map tagsAndDigests pre) ->
    tagsAndDigests image = ss1 ++ s :: ss2 ->
    Forall goodRef ss1 ->
    badRef s err ->
    outcome (CmdImages quiet noTrunc showDigests (inr (pre ++ image :: post)) k)
    = inl err
    /\ parsed (events (CmdImages quiet noTrunc showDigests
                         (inr (pre ++ image :: post)) k))
       = toParse (flat_map tagsAndDigests pre ++ ss1) ++ [s]
    /\ length (writes (events (CmdImages quiet noTrunc showDigests
                                 (inr (pre ++ image :: post)) k)))
       = (if quiet then 0 else 1) + length (flat_map tagsAndDigests pre)
         + length ss1
    /\ ~ In FlushW (events (CmdImages quiet noTrunc showDigests
                              (inr (pre ++ image :: post)) k))
    /\ forall post',
         CmdImages quiet noTrunc showDigests (inr (pre ++ image :: post')) k
         = CmdImages quiet noTrunc showDigests (inr (pre ++ image :: post)) k.
Proof.
  intros quiet noTrunc showDigests pre image post ss1 s ss2 err k Gp T G B.
  assert (St := fun post0 =>
    loop_stop _ ParseNamed TruncateID HumanDurationSince HumanSize
      quiet noTrunc showDigests pre image post0 ss1 s ss2 err k Gp T G B).
  cbv zeta in St.
  destruct (loop_ok _ ParseNamed TruncateID HumanDurationSince HumanSize
              quiet noTrunc showDigests pre k
              (loop_good _ ParseNamed TruncateID HumanDurationSince HumanSize
                 quiet noTrunc showDigests pre Gp k)) as (Pp & Pw & _).
  set (r := forM_ pre (listImage quiet noTrunc showDigests) k) in *.
  destruct (inner_ok _ ParseNamed HumanDurationSince HumanSize
              quiet showDigests (displayID noTrunc image) image ss1 (clockReads r)
              (inner_good _ ParseNamed HumanDurationSince HumanSize
                 quiet showDigests (displayID noTrunc image) image ss1 G _))
    as (Ip & Iw & _).
  set (r1 := forM_ ss1 (listRef quiet showDigests (displayID noTrunc image) image)
               (clockReads r)) in *.
  assert (E : forall post0,
            CmdImages quiet noTrunc showDigests (inr (pre ++ image :: post0)) k
            = ((if quiet then [] else [Fprint (header showDigests)])
                 ++ (events r ++ events r1 ++ [CallParse s]), clockReads r1, inl err)).
  { intros post0. rewrite CmdImages_run, (St post0).
    cbn [events clockReads outcome fst snd]. now rewrite app_nil_r. }
  rewrite (E post). cbn [events clockReads outcome fst snd].
  split; [reflexivity|]. split; [|split; [|split]].
  - rewrite !parsed_app, Pp, Ip, toParse_app, <- app_assoc.
    destruct quiet; reflexivity.
  - rewrite !writes_app, !length_app, Pw, Iw. destruct quiet; simpl; lia.
  - intros F. apply in_app_or in F. destruct F as [F|F].
    + destruct quiet; [destruct F|]. destruct F as [F|[]]. discriminate.
    + apply (loop_no_flush _ ParseNamed TruncateID HumanDurationSince HumanSize
               quiet noTrunc showDigests (pre ++ image :: post) k).
      rewrite (St post). exact F.
  - intros post'. now rewrite (E post').
Qed.

End ListingFacts.

(** ** The sentinel prefix and the exact pair *)

Section Sentinel.
Variable error : Type.
Variable ParseNamed : string -> error + Named.
Variable TruncateID : string -> string.
Variable HumanDurationSince : nat -> Z -> string.
Variable HumanSize : Z -> string.

Local Abbreviation listRef := (listRef ParseNamed HumanDurationSince HumanSize).
Local Abbreviation listImage := (listImage ParseNamed TruncateID HumanDurationSince HumanSize).
Local Abbreviation rowLine := (rowLine HumanDurationSince HumanSize).
Local Abbreviation displayID := (displayID TruncateID).

Lemma listRef_sentinel quiet showDigests id image s k :
  HasPrefix s "<none>" = true ->
  listRef quiet showDigests id image s k
  = ([Fprint (rowLine quiet showDigests id image k (none, none, none))],
     if quiet then k else S k, inr tt).
Proof.
  intros H. rewrite listRef_ok with (f := (none, none, none));
    rewrite (refFields_none _ ParseNamed s k H); reflexivity.
Qed.

(** X11 (lines 80-93).  The test for a dangling record compares with
    the exact strings, the test of the inner loop is on the prefix: a
    record with one tag and one digest string that both start with
    [<none>] but are not the exact pair is not collapsed, and is listed
    in two rows, both with repository, tag and digest [<none>], without
    a call of the parser. *)
Theorem sentinel_prefix_rows_not_collapsed :
  forall quiet noTrunc showDigests image t d k,
    RepoTags image = [t] ->
    RepoDigests image = [d] ->
    HasPrefix t "<none>" = true ->
    HasPrefix d "<none>" = true ->
    ~ (t = "<none>:<none>"%string /\ d = "<none>@<none>"%string) ->
    tagsAndDigests image = [t; d]
    /\ listImage quiet noTrunc showDigests image k
       = ([Fprint (rowLine quiet showDigests (displayID noTrunc image) image k
                     (none, none, none));
           Fprint (rowLine quiet showDigests (displayID noTrunc image) image
                     (if quiet then k else S k) (none, none, none))],
          if quiet then k else S (S k), inr tt).
Proof.
  intros quiet noTrunc showDigests image t d k Ht Hd Pt Pd N.
  assert (T : tagsAndDigests image = [t; d]).
  { rewrite tagsAndDigests_all; [now rewrite Ht, Hd|].
    rewrite Ht, Hd. intros [A B]. apply N.
    split; [now inversion A|now inversion B]. }
  split; [exact T|].
  rewrite listImage_eq, T. simpl. unfold bind, ret.
  rewrite (listRef_sentinel _ _ _ _ t k Pt).
  rewrite (listRef_sentinel _ _ _ _ d _ Pd).
  destruct quiet; reflexivity.
Qed.

End Sentinel.

(** ** What the display flags and the formatters cannot change *)

Section Independence.
Variable error : Type.
Variable ParseNamed : string -> error + Named.

Lemma inner_same HDS HS quiet showDigests id image
    HDS' HS' quiet' showDigests' id' image' ss : forall k k',
  outcome (forM_ ss (listRef ParseNamed HDS HS quiet showDigests id image) k)
  = outcome (forM_ ss (listRef ParseNamed HDS' HS' quiet' showDigests' id' image') k')
  /\ parsed (events (forM_ ss (listRef ParseNamed HDS HS quiet showDigests id image) k))
     = parsed (events (forM_ ss
                         (listRef ParseNamed HDS' HS' quiet' showDigests' id' image') k')).
Proof.
  induction ss as [|s ss IH]; intros k k'; [split; reflexivity|].
  destruct (listRef_cases _ ParseNamed HDS HS quiet showDigests id image s k)
    as [(G & f & E)|(err & B & E)];
  destruct (listRef_cases _ ParseNamed HDS' HS' quiet' showDigests' id' image' s k')
    as [(G' & f' & E')|(err' & B' & E')].
  - assert (O : outcome (listRef ParseNamed HDS HS quiet showDigests id image s k)
                = inr tt) by (rewrite E; reflexivity).
    assert (O' : outcome (listRef ParseNamed HDS' HS' quiet' showDigests' id' image' s k')
                 = inr tt) by (rewrite E'; reflexivity).
    rewrite (forM_cons_ok _ _ _ _ _ _ O), (forM_cons_ok _ _ _ _ _ _ O'), E, E'.
    cbn [events clockReads outcome fst snd].
    destruct (IH (if quiet then k else S k) (if quiet' then k' else S k')) as [Io Ip].
    split; [exact Io|]. rewrite !parsed_app, Ip.
    destruct (HasPrefix s "<none>"); reflexivity.
  - elim (good_not_bad _ ParseNamed s err' G B').
  - elim (good_not_bad _ ParseNamed s err G' B).
  - assert (err' = err) by (destruct B as [_ P], B' as [_ P']; congruence).
    subst err'.
    assert (O : outcome (listRef ParseNamed HDS HS quiet showDigests id image s k)
                = inl err) by (rewrite E; reflexivity).
    assert (O' : outcome (listRef ParseNamed HDS' HS' quiet' showDigests' id' image' s k')
                 = inl err) by (rewrite E'; reflexivity).
    rewrite (forM_cons_err _ _ _ _ _ _ _ O), (forM_cons_err _ _ _ _ _ _ _ O'), E, E'.
    split; reflexivity.
Qed.

Lemma loop_same T HDS HS quiet noTrunc showDigests
    T' HDS' HS' quiet' noTrunc' showDigests' images : forall k k',
  outcome (forM_ images (listImage ParseNamed T HDS HS quiet noTrunc showDigests) k)
  = outcome (forM_ images
               (listImage ParseNamed T' HDS' HS' quiet' noTrunc' showDigests') k')
  /\ parsed (events (forM_ images
                       (listImage ParseNamed T HDS HS quiet noTrunc showDigests) k))
     = parsed (events (forM_ images
                         (listImage ParseNamed T' HDS' HS' quiet' noTrunc' showDigests')
                         k')).
Proof.
  induction images as [|image images IH]; intros k k'; [split; reflexivity|].
  destruct (inner_same HDS HS quiet showDigests (displayID T noTrunc image) image
              HDS' HS' quiet' showDigests' (displayID T' noTrunc' image) image
              (tagsAndDigests image) k k') as [Io Ip].
  rewrite <- !listImage_eq in Io, Ip.
  destruct (outcome_unit error
              (listImage ParseNamed T HDS HS quiet noTrunc showDigests image k))
    as [[err E]|E].
  - assert (E' := E). rewrite Io in E'.
    rewrite (forM_cons_err _ _ _ _ _ _ _ E), (forM_cons_err _ _ _ _ _ _ _ E').
    cbn [events outcome fst snd]. split; [reflexivity|exact Ip].
  - assert (E' := E). rewrite Io in E'.
    rewrite (forM_cons_ok _ _ _ _ _ _ E), (forM_cons_ok _ _ _ _ _ _ E').
    cbn [events outcome fst snd].
    destruct (IH (clockReads (listImage ParseNamed T HDS HS quiet noTrunc showDigests
                                image k))
                 (clockReads (listImage ParseNamed T' HDS' HS' quiet' noTrunc'
                                showDigests' image k'))) as [Jo Jp].
    split; [exact Jo|]. now rewrite !parsed_app, Ip, Jp.
Qed.

(** X9 (lines 71-118).  Whether the listing succeeds, the error it
    returns, and the calls of the reference parser are the same under
    every combination of the quiet, no-trunc and digests flags, for
    every id truncation, duration and size formatter, and at every
    time: they depend on the parser and the daemon's answer alone. *)
Theorem outcome_independent_of_display :
  forall T HDS HS quiet noTrunc showDigests
         T' HDS' HS' quiet' noTrunc' showDigests' listed k k',
    outcome (CmdImages ParseNamed T HDS HS quiet noTrunc showDigests listed k)
    = outcome (CmdImages ParseNamed T' HDS' HS' quiet' noTrunc' showDigests' listed k')
    /\ parsed (events (CmdImages ParseNamed T HDS HS quiet noTrunc showDigests listed k))
       = parsed (events (CmdImages ParseNamed T' HDS' HS' quiet' noTrunc' showDigests'
                           listed k')).
Proof.
  intros T HDS HS quiet noTrunc showDigests
         T' HDS' HS' quiet' noTrunc' showDigests' [err|images] k k';
    [split; reflexivity|].
  rewrite !CmdImages_run. cbn [events outcome fst snd].
  destruct (loop_same T HDS HS quiet noTrunc showDigests
              T' HDS' HS' quiet' noTrunc' showDigests' images k k') as [Lo Lp].
  split; [exact Lo|]. rewrite !parsed_app, Lp. f_equal.
  - destruct quiet, quiet'; reflexivity.
  - f_equal.
    destruct (outcome (forM_ images (listImage ParseNamed T HDS HS quiet noTrunc
                                       showDigests) k));
      destruct (outcome (forM_ images (listImage ParseNamed T' HDS' HS' quiet' noTrunc'
                                         showDigests') k'));
      destruct quiet, quiet'; reflexivity.
Qed.

(** X7 (lines 108-116).  With the quiet flag the clock is never read,
    whether the listing succeeds or fails, and the run is the same,
    effect for effect, for every duration and size formatter: neither
    is called. *)
Theorem quiet_never_reads_the_clock :
  forall T HDS HS HDS' HS' noTrunc showDigests listed k,
    clockReads (CmdImages ParseNamed T HDS HS true noTrunc showDigests listed k) = k
    /\ CmdImages ParseNamed T HDS HS true noTrunc showDigests listed k
       = CmdImages ParseNamed T HDS' HS' true noTrunc showDigests listed k.
Proof.
  intros T HDS HS HDS' HS' noTrunc showDigests [err|images] k;
    [split; reflexivity|].
  rewrite !CmdImages_run. cbn [clockReads fst snd]. split.
  - apply forM_clock_same. intros image k1. rewrite listImage_eq.
    apply forM_clock_same. intros s k2.
    destruct (listRef_cases _ ParseNamed HDS HS true showDigests
                (displayID T noTrunc image) image s k2)
      as [(_ & f & E)|(err & _ & E)]; rewrite E; reflexivity.
  - assert (L : forM_ images (listImage ParseNamed T HDS HS true noTrunc showDigests) k
                = forM_ images (listImage ParseNamed T HDS' HS' true noTrunc showDigests) k).
    { apply forM_ext. intros image k1. rewrite !listImage_eq.
      apply forM_ext. intros s k2. unfold listRef, bind.
      destruct (refFields ParseNamed s k2) as [[e k3] [err|[[repo tag] digest]]];
        reflexivity. }
    rewrite L. reflexivity.
Qed.

End Independence.

(** ** The table at the flush *)

Section Flushed.
Import tabwriter.
Variable error : Type.
Variable ParseNamed : string -> error + Named.
Variable TruncateID : string -> string.
Variable HumanDurationSince : nat -> Z -> string.
Variable HumanSize : Z -> string.
Variable format : string -> string.

Local Abbreviation Write := (Write format).
Local Abbreviation run := (run format).
Local Abbreviation keptLine := (keptLine format).
Local Abbreviation listImage := (listImage ParseNamed TruncateID HumanDurationSince HumanSize).
Local Abbreviation CmdImages := (CmdImages ParseNamed TruncateID HumanDurationSince HumanSize).
Local Abbreviation rowText := (rowText HumanDurationSince HumanSize).
Local Abbreviation isRow := (isRow ParseNamed TruncateID HumanDurationSince HumanSize).
Local Abbreviation plainCells := (plainCells ParseNamed TruncateID HumanDurationSince HumanSize).

Lemma run_app evs1 evs2 : forall w, run w (evs1 ++ evs2) = run (run w evs1) evs2.
Proof.
  induction evs1 as [|[s|s|] evs1 IH]; intros w; simpl; auto.
Qed.

(** The last cell of a line that has cells already. *)
Lemma kept_last c :
  plain c = true ->
  forall w, inLine w ->
    Write w (c ++ NL) = mkWriter (out w) (buf w ++ c ++ NL) 0 false.
Proof.
  intros P w [C E]. rewrite Write_app, (Write_plain format c w P E).
  rewrite Write_NL_inLine by (split; simpl; auto). simpl.
  now rewrite append_assoc.
Qed.

(** A cell in the middle of a line. *)
Lemma kept_more c rest :
  plain c = true ->
  (forall w, inLine w ->
     Write w rest = mkWriter (out w) (buf w ++ rest) 0 false) ->
  forall w, inLine w ->
    Write w (c ++ TAB ++ rest)
    = mkWriter (out w) (buf w ++ c ++ TAB ++ rest) 0 false.
Proof.
  intros P R w [C E]. rewrite !Write_app, (Write_plain format c w P E).
  rewrite Write_TAB by reflexivity.
  rewrite R by (split; simpl; [discriminate|reflexivity]). simpl.
  now rewrite !append_assoc.
Qed.

(** The first cell of a line of several cells. *)
Lemma kept_first c rest :
  plain c = true ->
  (forall w, inLine w ->
     Write w rest = mkWriter (out w) (buf w ++ rest) 0 false) ->
  keptLine (c ++ TAB ++ rest).
Proof.
  intros P R w [C E]. rewrite !Write_app, (Write_plain format c w P E).
  rewrite Write_TAB by reflexivity.
  rewrite R by (split; simpl; [discriminate|reflexivity]). simpl.
  now rewrite !append_assoc.
Qed.

Lemma header_kept showDigests : keptLine (header showDigests).
Proof.
  destruct showDigests; cbv beta iota delta [header];
    repeat (first [apply kept_first; [reflexivity|]
                  |apply kept_more; [reflexivity|]
                  |apply kept_last; reflexivity]).
Qed.

Lemma rowText_kept showDigests id image k repo tag digest :
  plain repo = true -> plain tag = true -> plain digest = true ->
  plain id = true ->
  plain (HumanDurationSince k (Created image)) = true ->
  plain (HumanSize (Size image)) = true ->
  keptLine (rowText showDigests id image k repo tag digest).
Proof.
  intros Pr Pt Pd Pi Pa Ps. rewrite rowText_eq.
  assert (Pago : plain (HumanDurationSince k (Created image) ++ " ago") = true)
    by (rewrite plain_app, Pa; reflexivity).
  destruct showDigests;
    rewrite <- (append_assoc (HumanDurationSince k (Created image)) " ago");
    (apply kept_first; [assumption|]);
    repeat (apply kept_more; [assumption|]);
    now apply kept_last.
Qed.

Lemma row_kept noTrunc showDigests images line :
  plainCells noTrunc images ->
  isRow false noTrunc showDigests images line -> keptLine line.
Proof.
  intros (Hp & Hd & Hs & Hi) (image & k & f & I & F & ->).
  red in Hi. rewrite Forall_forall in Hi.
  assert (Pf : plain (fst (fst f)) = true /\ plain (snd (fst f)) = true
               /\ plain (snd f) = true).
  { destruct F as [->|(s & ref & P & ->)].
    - repeat split; reflexivity.
    - apply namedFields_plain. eapply Hp. eassumption. }
  destruct f as [[repo tag] digest]. destruct Pf as (Pr & Pt & Pd).
  apply rowText_kept; auto.
Qed.

(** Lines that are kept pile up in the buffer. *)
Lemma run_kept evs : forall w,
  Forall keptLine (writes evs) -> ~ In FlushW evs -> lineStart w ->
  run w evs = mkWriter (out w) (buf w ++ joined (writes evs)) 0 false.
Proof.
  induction evs as [|[s|s|] evs IH]; intros w K NF L; simpl.
  - destruct w as [o b c e]. destruct L as [C E]. simpl in *. subst.
    now rewrite append_nil_r.
  - apply IH; auto. intros F. apply NF. now right.
  - simpl in K. inversion K as [|? ? Ks Kr]; subst.
    rewrite (Ks w L), IH; auto.
    + simpl. now rewrite append_assoc.
    + intros F. apply NF. now right.
    + split; reflexivity.
  - elim NF. now left.
Qed.

(** X6 (lines 62-69, 108-113, 120-121).  In a listing without the
    quiet flag that succeeds, with cells free of tab, line-break and
    escape bytes, nothing reaches the stream while the header and the
    rows are written: they are all in the buffer when the loop ends.
    The flush then hands them to the stream in one piece, so the
    columns are aligned over the header and all the rows together, and
    leaves the buffer empty. *)
Theorem table_reaches_stream_at_flush :
  forall noTrunc showDigests images k output,
    plainCells noTrunc images ->
    outcome (CmdImages false noTrunc showDigests (inr images) k) = inr tt ->
    let rows := events (forM_ images (listImage false noTrunc showDigests) k) in
    events (CmdImages false noTrunc showDigests (inr images) k)
    = Fprint (header showDigests) :: rows ++ [FlushW]
    /\ run (NewWriter output) (Fprint (header showDigests) :: rows)
       = mkWriter output (joined (header showDigests :: writes rows)) 0 false
    /\ run (NewWriter output)
         (events (CmdImages false noTrunc showDigests (inr images) k))
       = NewWriter (output ++ format (joined (header showDigests :: writes rows))).
Proof.
  intros noTrunc showDigests images k output PC Ok rows.
  destruct (CmdImages_ok _ _ _ _ _ _ _ _ _ k Ok) as [L E].
  assert (Ev : events (CmdImages false noTrunc showDigests (inr images) k)
               = Fprint (header showDigests) :: rows ++ [FlushW])
    by (rewrite E; reflexivity).
  destruct (rowEvent_split _ ParseNamed TruncateID HumanDurationSince HumanSize
              false noTrunc showDigests images _
              (loop_events _ ParseNamed TruncateID HumanDurationSince HumanSize
                 false noTrunc showDigests images k)) as [R NF].
  fold rows in R, NF.
  assert (B : run (NewWriter output) (Fprint (header showDigests) :: rows)
              = mkWriter output (joined (header showDigests :: writes rows)) 0 false).
  { rewrite run_kept.
    - reflexivity.
    - simpl. constructor; [apply header_kept|].
      eapply Forall_impl; [|exact R].
      intros line Hl. exact (row_kept noTrunc showDigests images line PC Hl).
    - intros [F|F]; [discriminate|]. now apply NF.
    - split; reflexivity. }
  split; [exact Ev|]. split; [exact B|].
  rewrite Ev, app_comm_cons, run_app, B. reflexivity.
Qed.

End Flushed.

(** ** The combined slice of line 86 *)

Section Combined.
Variable error : Type.
Variable ParseNamed : string -> error + Named.
Variable TruncateID : string -> string.
Variable HumanDurationSince : nat -> Z -> string.
Variable HumanSize : Z -> string.
Variable growth : nat -> nat -> nat.

Lemma load_empty m : load m (mkSlice 0 0 0) = [].
Proof. reflexivity. Qed.

(** The length the combined slice needs. *)
Lemma combined_length h image :
  length (tagsAndDigests (view (cell h) image))
  = len (sRepoTags image)
    + length (load (cell h)
                (if danglingS (cell h) (sRepoTags image) (sRepoDigests image)
                 then mkSlice 0 0 0 else sRepoDigests image)).
Proof.
  unfold tagsAndDigests. simpl. rewrite length_app, length_load, danglingS_view.
  destruct (dangling _ _); reflexivity.
Qed.

(** X13 (line 86).  Whatever the layout of the store, the combined
    slice reads as the tag strings followed by the digest strings (or
    the tag string alone for a dangling record).  When that many
    strings fit in the capacity of the tag slice, [append] allocates
    nothing and the combined slice starts where the tag slice starts,
    with the same capacity: the digest strings are copied into the
    spare capacity of the record's own tag array.  Otherwise the
    combined slice is a fresh array at the end of the store, and every
    cell allocated before reads as it did. *)
Theorem combined_slice_shares_or_copies :
  forall h image,
    let r := tagsAndDigestsS growth h image in
    let n := length (tagsAndDigests (view (cell h) image)) in
    load (cell (fst r)) (snd r) = tagsAndDigests (view (cell h) image)
    /\ len (snd r) = n
    /\ (n <= cap (sRepoTags image) ->
        base (snd r) = base (sRepoTags image)
        /\ cap (snd r) = cap (sRepoTags image)
        /\ next (fst r) = next h)
    /\ (cap (sRepoTags image) < n ->
        base (snd r) = next h
        /\ n <= cap (snd r)
        /\ next (fst r) = next h + cap (snd r)
        /\ forall a, a < next h -> cell (fst r) a = cell h a).
Proof.
  intros h image r n. split; [apply tagsAndDigestsS_load|].
  subst r n. rewrite combined_length. unfold tagsAndDigestsS, append.
  set (ds := load (cell h) _).
  destruct (Nat.leb (len (sRepoTags image) + length ds) (cap (sRepoTags image)))
    eqn:Fit; simpl.
  - apply Nat.leb_le in Fit. split; [reflexivity|]. split; [auto|]. lia.
  - apply Nat.leb_gt in Fit. split; [reflexivity|]. split; [lia|].
    intros _. split; [reflexivity|]. split; [apply Nat.le_max_l|].
    split; [reflexivity|]. intros a A. apply storeAt_out. lia.
Qed.

(** X14 (lines 71-118).  For records whose slices do not show a cell
    of the spare capacity of a tag slice, the loop run on the store,
    with [append] writing into it, has the effects, the clock readings
    and the result of the loop run on the lists the records show
    before it starts. *)
Theorem store_run_is_list_run :
  forall quiet noTrunc showDigests images h k,
    separated h images ->
    snd (listImagesS ParseNamed TruncateID HumanDurationSince HumanSize growth
           quiet noTrunc showDigests images h k)
    = forM_ (map (view (cell h)) images)
        (listImage ParseNamed TruncateID HumanDurationSince HumanSize
           quiet noTrunc showDigests) k.
Proof.
  intros quiet noTrunc showDigests images h k Sep.
  now apply listImagesS_refines.
Qed.

End Combined.

(** ** Concrete runs of the command *)

Section CommandRuns.
Import tabwriter.

(** [docker images -a -f dangling=true busybox]. *)
Example command_listing :
  SampleCommand.CmdImagesCommand SampleCommand.ImageList
    (mkFlags true true false false ["dangling=true"] ["busybox"]) 0
  = ([CallParse "library/foo:latest"; Fprint ("0123456789ab" ++ NL);
      Fprint ("aaaabbbbcccc" ++ NL)], 0, inr tt).
Proof. reflexivity. Qed.

(** A full tag slice: the combined slice is a fresh array. *)
Example fullS_append :
  snd (tagsAndDigestsS Sample.growth Sample.heap0 SampleCommand.fullS)
  = mkSlice 8 2 2
  /\ load (cell (fst (tagsAndDigestsS Sample.growth Sample.heap0 SampleCommand.fullS)))
       (mkSlice 8 2 2)
     = ["library/foo:latest"; "library/foo@sha256:0a1b"]%string.
Proof. split; reflexivity. Qed.

Lemma filter_error_before_request_witness :
  SampleCommand.CmdImagesCommand SampleCommand.ImageList
    (mkFlags false false false false ["dangling=true"; "label"; "before=x"] []) 0
  = ([], 0, inl "bad format of filter (expected name=value)"%string).
Proof.
  exact (filter_error_before_request string Sample.ParseNamed Sample.TruncateID
           Sample.HumanDurationSince Sample.HumanSize (list string) []
           SampleCommand.ParseFlag SampleCommand.ImageList
           (mkFlags false false false false ["dangling=true"; "label"; "before=x"] [])
           ["dangling=true"%string] "label"%string ["before=x"%string]
           ["dangling=true"%string]
           "bad format of filter (expected name=value)"%string 0
           eq_refl eq_refl eq_refl).
Defined.

Lemma request_options_witness :
  consolidate SampleCommand.ParseFlag ["dangling=true"; "label=a"]%string []
  = inr ["dangling=true"; "label=a"]%string
  /\ exists options,
       Filters options = ["dangling=true"; "label=a"]%string
       /\ All options = true
       /\ MatchName options = "busybox"%string
       /\ SampleCommand.CmdImagesCommand SampleCommand.ImageList
            (mkFlags false true false false ["dangling=true"; "label=a"] ["busybox"]) 0
          = Sample.CmdImages false false false (SampleCommand.ImageList options) 0.
Proof.
  split; [reflexivity|].
  destruct (request_options string Sample.ParseNamed Sample.TruncateID
              Sample.HumanDurationSince Sample.HumanSize (list string) []
              SampleCommand.ParseFlag SampleCommand.ImageList
              (mkFlags false true false false ["dangling=true"; "label=a"] ["busybox"])
              ["dangling=true"; "label=a"]%string 0 eq_refl)
    as [(options & F & A & M & _ & E) _].
  exists options. split; [exact F|]. split; [exact A|].
  split; [exact (M eq_refl)|exact E].
Defined.

Lemma daemon_error_returned_witness :
  SampleCommand.CmdImagesCommand SampleCommand.ImageListDown
    (mkFlags false false false false [] []) 0
  = ([], 0, inl "Cannot connect to the Docker daemon"%string).
Proof.
  exact (proj1 (daemon_error_returned string Sample.ParseNamed Sample.TruncateID
                  Sample.HumanDurationSince Sample.HumanSize (list string) []
                  SampleCommand.ParseFlag SampleCommand.ImageListDown
                  (mkFlags false false false false [] []) []
                  "Cannot connect to the Docker daemon"%string 0 eq_refl eq_refl)).
Defined.

Lemma unreferenced_record_is_skipped_witness :
  Sample.CmdImages false false false
    (inr ([Sample.foo] ++ SampleCommand.unreferenced :: [Sample.danglingImage])) 0
  = Sample.CmdImages false false false
      (inr ([Sample.foo] ++ [Sample.danglingImage])) 0.
Proof.
  exact (proj2 (unreferenced_record_is_skipped string Sample.ParseNamed
                  Sample.TruncateID Sample.HumanDurationSince Sample.HumanSize
                  false false false [Sample.foo] SampleCommand.unreferenced
                  [Sample.danglingImage] 0 eq_refl eq_refl)).
Defined.

Lemma parser_called_once_per_reference_witness :
  outcome (Sample.CmdImages false false true
             (inr [Sample.mixed; Sample.danglingImage]) 0) = inr tt
  /\ parsed (events (Sample.CmdImages false false true
                       (inr [Sample.mixed; Sample.danglingImage]) 0))
     = ["library/foo:latest"; "library/foo@sha256:0a1b"]%string.
Proof.
  split; [reflexivity|].
  exact (parser_called_once_per_reference string Sample.ParseNamed
           Sample.TruncateID Sample.HumanDurationSince Sample.HumanSize
           false false true [Sample.mixed; Sample.danglingImage] 0 eq_refl).
Defined.

Lemma one_row_one_clock_reading_per_reference_witness :
  outcome (Sample.CmdImages false false true
             (inr [Sample.mixed; Sample.danglingImage]) 0) = inr tt
  /\ length (writes (events (Sample.CmdImages false false true
                               (inr [Sample.mixed; Sample.danglingImage]) 0))) = 5
  /\ clockReads (Sample.CmdImages false false true
                   (inr [Sample.mixed; Sample.danglingImage]) 0) = 4.
Proof.
  split; [reflexivity|].
  exact (one_row_one_clock_reading_per_reference string Sample.ParseNamed
           Sample.TruncateID Sample.HumanDurationSince Sample.HumanSize
           false false true [Sample.mixed; Sample.danglingImage] 0 eq_refl).
Defined.

Lemma first_failure_stops_the_listing_witness :
  Forall (goodRef Sample.ParseNamed) (flat_map tagsAndDigests [Sample.foo])
  /\ badRef Sample.ParseNamed ":latest" "invalid reference format: :latest"
  /\ outcome (Sample.CmdImages false false false
                (inr ([Sample.foo] ++ Sample.broken :: [Sample.danglingImage])) 0)
     = inl "invalid reference format: :latest"%string
  /\ parsed (events (Sample.CmdImages false false false
                       (inr ([Sample.foo] ++ Sample.broken :: [Sample.danglingImage])) 0))
     = ["library/foo:latest"; ":latest"]%string.
Proof.
  assert (G : Forall (goodRef Sample.ParseNamed) (flat_map tagsAndDigests [Sample.foo]))
    by (constructor; [right; eexists; reflexivity|constructor]).
  assert (G1 : Forall (goodRef Sample.ParseNamed) ["<none>:<none>"%string])
    by (constructor; [left; reflexivity|constructor]).
  assert (B : badRef Sample.ParseNamed ":latest" "invalid reference format: :latest")
    by (split; reflexivity).
  split; [exact G|]. split; [exact B|].
  destruct (first_failure_stops_the_listing string Sample.ParseNamed
              Sample.TruncateID Sample.HumanDurationSince Sample.HumanSize
              false false false [Sample.foo] Sample.broken [Sample.danglingImage]
              ["<none>:<none>"%string] ":latest"%string []
              "invalid reference format: :latest"%string 0 G eq_refl G1 B)
    as (O & P & _).
  split; [exact O|exact P].
Defined.

Lemma sentinel_prefix_rows_not_collapsed_witness :
  tagsAndDigests SampleCommand.nearDangling
  = ["<none>:<none>"; "<none>@sha256:0a1b"]%string
  /\ writes (events (Sample.listImage true false false SampleCommand.nearDangling 0))
     = [("999988887777" ++ NL)%string; ("999988887777" ++ NL)%string].
Proof.
  destruct (sentinel_prefix_rows_not_collapsed string Sample.ParseNamed
              Sample.TruncateID Sample.HumanDurationSince Sample.HumanSize
              true false false SampleCommand.nearDangling
              "<none>:<none>"%string "<none>@sha256:0a1b"%string 0
              eq_refl eq_refl eq_refl eq_refl)
    as [T E].
  - intros [_ D]. discriminate D.
  - split; [exact T|]. unfold Sample.listImage. rewrite E. reflexivity.
Defined.

Lemma table_reaches_stream_at_flush_witness :
  plainCells Sample.ParseNamed Sample.TruncateID Sample.HumanDurationSince
    Sample.HumanSize false [Sample.foo; Sample.danglingImage]
  /\ run Sample.format (NewWriter "$ ")
       (events (Sample.CmdImages false false false
                  (inr [Sample.foo; Sample.danglingImage]) 0))
     = NewWriter
         ("$ " ++ "REPOSITORY" ++ TAB ++ "TAG" ++ TAB ++ "IMAGE ID" ++ TAB
          ++ "CREATED" ++ TAB ++ "SIZE" ++ NL
          ++ "library/foo" ++ TAB ++ "latest" ++ TAB ++ "0123456789ab" ++ TAB
          ++ "2 hours ago" ++ TAB ++ "1 MB" ++ NL
          ++ "<none>" ++ TAB ++ "<none>" ++ TAB ++ "aaaabbbbcccc" ++ TAB
          ++ "2 hours ago" ++ TAB ++ "1 MB" ++ NL)%string.
Proof.
  assert (PC : plainCells Sample.ParseNamed Sample.TruncateID
                 Sample.HumanDurationSince Sample.HumanSize false
                 [Sample.foo; Sample.danglingImage]).
  { apply sample_plainCells.
    constructor; [reflexivity|constructor; [reflexivity|constructor]]. }
  split; [exact PC|].
  exact (proj2 (proj2 (table_reaches_stream_at_flush string Sample.ParseNamed
                         Sample.TruncateID Sample.HumanDurationSince Sample.HumanSize
                         Sample.format false false
                         [Sample.foo; Sample.danglingImage] 0 "$ " PC eq_refl))).
Defined.

Lemma store_run_is_list_run_witness :
  separated Sample.heap0 [Sample.fooS]
  /\ snd (Sample.listImagesS false false false [Sample.fooS] Sample.heap0 0)
     = forM_ [view (cell Sample.heap0) Sample.fooS]
         (Sample.listImage false false false) 0.
Proof.
  assert (H : separated Sample.heap0 [Sample.fooS]).
  { intros image [<-|[]]. simpl. repeat split; try lia.
    - destruct H as [<-|[]]. unfold spare, shown in *. simpl in *. lia.
    - destruct H as [<-|[]]. unfold spare, shown in *. simpl in *. lia. }
  split; [exact H|].
  exact (store_run_is_list_run string Sample.ParseNamed Sample.TruncateID
           Sample.HumanDurationSince Sample.HumanSize Sample.growth
           false false false [Sample.fooS] Sample.heap0 0 H).
Defined.

End CommandRuns.

(** ** The shape of the lines *)

Section Columns.
Import tabwriter.
Variable error : Type.
Variable ParseNamed : string -> error + Named.
Variable TruncateID : string -> string.
Variable HumanDurationSince : nat -> Z -> string.
Variable HumanSize : Z -> string.

Local Abbreviation listImage := (listImage ParseNamed TruncateID HumanDurationSince HumanSize).
Local Abbreviation CmdImages := (CmdImages ParseNamed TruncateID HumanDurationSince HumanSize).
Local Abbreviation rowText := (rowText HumanDurationSince HumanSize).
Local Abbreviation isRow := (isRow ParseNamed TruncateID HumanDurationSince HumanSize).
Local Abbreviation plainCells := (plainCells ParseNamed TruncateID HumanDurationSince HumanSize).

Lemma countIf_app p a b : countIf p (a ++ b) = countIf p a + countIf p b.
Proof.
  induction a as [|c a IH]; simpl; [reflexivity|]. rewrite IH. apply Nat.add_assoc.
Qed.

Lemma plain_count s :
  plain s = true -> countIf isTab s = 0 /\ countIf isBreak s = 0.
Proof.
  induction s as [|c s IH]; simpl; [auto|]. intros P.
  apply andb_prop in P. destruct P as [C P]. destruct (IH P) as [-> ->].
  unfold control in C. apply negb_true_iff in C.
  apply orb_false_elim in C. destruct C as [C _].
  apply orb_false_elim in C. destruct C as [-> ->]. auto.
Qed.

Lemma rowText_count showDigests id image k repo tag digest :
  plain repo = true -> plain tag = true -> plain digest = true ->
  plain id = true ->
  plain (HumanDurationSince k (Created image)) = true ->
  plain (HumanSize (Size image)) = true ->
  countIf isTab (rowText showDigests id image k repo tag digest)
  = (if showDigests then 5 else 4)
  /\ countIf isBreak (rowText showDigests id image k repo tag digest) = 1.
Proof.
  intros Pr Pt Pd Pi Pa Ps. rewrite rowText_eq.
  destruct (plain_count _ Pr) as [R1 R2], (plain_count _ Pt) as [T1 T2],
    (plain_count _ Pd) as [D1 D2], (plain_count _ Pi) as [I1 I2],
    (plain_count _ Pa) as [A1 A2], (plain_count _ Ps) as [S1 S2].
  destruct showDigests; rewrite !countIf_app,
    ?R1, ?R2, ?T1, ?T2, ?D1, ?D2, ?I1, ?I2, ?A1, ?A2, ?S1, ?S2;
    split; reflexivity.
Qed.

(** X15 (lines 63-69, 108-113).  Without the quiet flag, and with
    cells free of tab, line-break and escape bytes, every line written
    to the tab writer, the header included, is one line of the table:
    it has one line break, at its end, and as many tab-terminated
    cells as the header, five with the digest column and four without
    it. *)
Theorem rows_have_the_header_columns :
  forall noTrunc showDigests images k line,
    plainCells noTrunc images ->
    In line (writes (events (CmdImages false noTrunc showDigests (inr images) k))) ->
    countIf isTab line = countIf isTab (header showDigests)
    /\ countIf isTab (header showDigests) = (if showDigests then 5 else 4)
    /\ countIf isBreak line = 1
    /\ exists cells, line = (cells ++ NL)%string.
Proof.
  intros noTrunc showDigests images k line (Hp & Hd & Hs & Hi) I.
  assert (Hh : countIf isTab (header showDigests) = (if showDigests then 5 else 4))
    by (destruct showDigests; reflexivity).
  rewrite Hh. rewrite CmdImages_run in I. cbn [events fst] in I.
  rewrite !writes_app in I. apply in_app_or in I. destruct I as [I|I].
  - destruct I as [<-|[]].
    split; [exact Hh|]. split; [reflexivity|].
    split; [destruct showDigests; reflexivity|].
    destruct showDigests;
      [exists ("REPOSITORY" ++ TAB ++ "TAG" ++ TAB ++ "DIGEST" ++ TAB ++ "IMAGE ID"
               ++ TAB ++ "CREATED" ++ TAB ++ "SIZE")%string
      |exists ("REPOSITORY" ++ TAB ++ "TAG" ++ TAB ++ "IMAGE ID"
               ++ TAB ++ "CREATED" ++ TAB ++ "SIZE")%string]; reflexivity.
  - assert (I' : In line (writes (events (forM_ images
                                            (listImage false noTrunc showDigests) k)))).
    { apply in_app_or in I. destruct I as [I|I]; [exact I|].
      destruct (outcome _); destruct I. }
    destruct (rowEvent_split _ ParseNamed TruncateID HumanDurationSince HumanSize
                false noTrunc showDigests images _
                (loop_events _ ParseNamed TruncateID HumanDurationSince HumanSize
                   false noTrunc showDigests images k)) as [R _].
    rewrite Forall_forall in R.
    destruct (R line I') as (image & k' & f & Im & F & ->).
    red in Hi. rewrite Forall_forall in Hi.
    assert (Pf : plain (fst (fst f)) = true /\ plain (snd (fst f)) = true
                 /\ plain (snd f) = true).
    { destruct F as [->|(s & ref & P & ->)].
      - repeat split; reflexivity.
      - apply namedFields_plain. eapply Hp. eassumption. }
    destruct f as [[repo tag] digest]. destruct Pf as (Pr & Pt & Pd).
    cbn [rowLine negb].
    destruct (rowText_count showDigests (displayID TruncateID noTrunc image) image k'
                repo tag digest Pr Pt Pd (Hi _ Im) (Hd _ _) (Hs _)) as [Ct Cb].
    split; [exact Ct|]. split; [reflexivity|]. split; [exact Cb|].
    rewrite rowText_eq. destruct showDigests.
    + eexists. rewrite <- !append_assoc. reflexivity.
    + eexists. rewrite <- !append_assoc. reflexivity.
Qed.

End Columns.

Section ColumnRuns.
Import tabwriter.

Lemma rows_have_the_header_columns_witness :
  plainCells Sample.ParseNamed Sample.TruncateID Sample.HumanDurationSince
    Sample.HumanSize false [Sample.foo]
  /\ In ("library/foo" ++ TAB ++ "latest" ++ TAB ++ "0123456789ab" ++ TAB
         ++ "2 hours ago" ++ TAB ++ "1 MB" ++ NL)%string
       (writes (events (Sample.CmdImages false false false (inr [Sample.foo]) 0)))
  /\ countIf isTab
       ("library/foo" ++ TAB ++ "latest" ++ TAB ++ "0123456789ab" ++ TAB
        ++ "2 hours ago" ++ TAB ++ "1 MB" ++ NL)%string
     = countIf isTab (header false).
Proof.
  assert (PC : plainCells Sample.ParseNamed Sample.TruncateID
                 Sample.HumanDurationSince Sample.HumanSize false [Sample.foo]).
  { apply sample_plainCells. constructor; [reflexivity|constructor]. }
  assert (I : In ("library/foo" ++ TAB ++ "latest" ++ TAB ++ "0123456789ab" ++ TAB
                  ++ "2 hours ago" ++ TAB ++ "1 MB" ++ NL)%string
                (writes (events (Sample.CmdImages false false false
                                   (inr [Sample.foo]) 0))))
    by (right; left; reflexivity).
  split; [exact PC|]. split; [exact I|].
  exact (proj1 (rows_have_the_header_columns string Sample.ParseNamed
                  Sample.TruncateID Sample.HumanDurationSince Sample.HumanSize
                  false false [Sample.foo] 0 _ PC I)).
Defined.

End ColumnRuns.
